(** * The GCS writer service ([main.go]) as a Rocq model

    The file follows [main.go] from the leaves up:

    - the key and content generators ([generateObjectKey],
      [generateRandomString]) over an explicit entropy pool and clock;
    - one write task (the goroutine body of [handleRequest]) as a local
      step function;
    - the handler with its fan-out/fan-in coordinator as an interleaving
      transition system: the handler goroutine and the spawned tasks take
      turns, a schedule being a list of (actor, delay) pairs;
    - process start-up ([main]) as a function from the start-up
      environment to the log of start-up actions.

    Library code the program calls is modelled by its documented contract
    and is marked as such where it is introduced: [crypto/rand.Read],
    [time.Now]/[Time.Format], [fmt.Sprintf], [encoding/json], [godotenv],
    the storage client, buffered channels and [sync.WaitGroup]. *)

From Stdlib Require Import ZArith NArith Lia Ascii String List DecimalString.
From Stdlib.Strings Require Import Byte.
From stdpp Require Import base tactics option list strings relations.

Local Open Scope Z_scope.

(** ** Crashes

    A Go program stops as a whole on an unrecovered panic in a goroutine and
    on a fatal runtime error.  Code that can do so returns a [result]. *)

Inductive crash :=
| EntropyFailure      (* crypto/rand could not deliver: fatal, not recoverable *)
| NegativeLen         (* make([]byte, n) with n < 0 *)
| IndexOutOfRange     (* s[i] with i outside s *)
| SendOnClosed        (* a send on a closed channel *)
| NegativeCounter.    (* sync: negative WaitGroup counter *)

#[global] Instance crash_eq_dec : EqDecision crash.
Proof. solve_decision. Defined.

Inductive result (A : Type) :=
| Ret (a : A)
| Crash (c : crash).
Arguments Ret {A} a.
Arguments Crash {A} c.

#[global] Instance result_ret : MRet result := λ A a, Ret a.
#[global] Instance result_bind : MBind result := λ A B f m,
  match m with
  | Ret a => f a
  | Crash c => Crash c
  end.

Definition returned {A} (m : result A) : bool :=
  match m with Ret _ => true | Crash _ => false end.

(** ** Bytes and strings

    A Go [string] is a [string], a [[]byte] a [list byte]; [string(b)] is
    [string_of_list_byte]. *)

Definition byte_val (b : byte) : N := Byte.to_N b.

(** [fmt.Sprintf("%x", b)] on a byte slice: two lower-case digits per byte,
    high nibble first (fmt's [fmtSbx] with [ldigits]). *)
Definition ldigits : string := "0123456789abcdef".

Definition digit_at (digits : string) (n : N) : ascii :=
  default "?"%char (String.get (N.to_nat n) digits).

Fixpoint fmt_x (b : list byte) : string :=
  match b with
  | [] => EmptyString
  | c :: rest =>
      String (digit_at ldigits (N.shiftr (byte_val c) 4))
        (String (digit_at ldigits (N.land (byte_val c) 15)) (fmt_x rest))
  end.

Definition is_lower_hex (c : ascii) : bool :=
  let n := N_of_ascii c in
  ((48 <=? n) && (n <=? 57) || (97 <=? n) && (n <=? 102))%N.

(** The characters of a string, as a list (to state facts about all of
    them). *)
Definition chars (s : string) : list ascii := list_ascii_of_string s.

(** ** The clock: [time.Now] and [Time.Format]

    A [Time] is an instant (nanoseconds since the Unix epoch) together with
    the location it is shown in.  A location gives the offset east of UTC,
    in seconds, in force at a given Unix second.  [time.Now()] returns the
    instant in the process's local location ([time.Local]). *)

Definition Location := Z → Z.
Definition UTC : Location := λ _, 0.

Record Time := mkTime { unixNano : Z; loc : Location }.

Definition time_Now (now : Z) (Local : Location) : Time := mkTime now Local.
Definition time_In_UTC (t : Time) : Time := mkTime (unixNano t) UTC.

Definition unixSec (t : Time) : Z := unixNano t `div` 1000000000.

(** Seconds since the epoch on the wall clock of the time's location. *)
Definition wallSec (t : Time) : Z := unixSec t + loc t (unixSec t).

(** Civil date of a day number (days since 1970-01-01), proleptic
    Gregorian calendar: year, month 1..12, day 1..31. *)
Definition civil_of_days (days : Z) : Z * Z * Z :=
  let z := days + 719468 in
  let era := z `div` 146097 in
  let doe := z - era * 146097 in
  let yoe := (doe - doe `div` 1460 + doe `div` 36524 - doe `div` 146096) `div` 365 in
  let doy := doe - (365 * yoe + yoe `div` 4 - yoe `div` 100) in
  let mp := (5 * doy + 2) `div` 153 in
  let d := doy - (153 * mp + 2) `div` 5 + 1 in
  let m := if mp <? 10 then mp + 3 else mp - 9 in
  let y := yoe + era * 400 + (if m <=? 2 then 1 else 0) in
  (y, m, d).

(** time's [appendInt]: decimal, a minus sign for a negative number, padded
    with leading zeros to [width] digits. *)
Definition decimal (n : N) : string := NilZero.string_of_uint (N.to_uint n).

Fixpoint zeros (n : nat) : string :=
  match n with O => EmptyString | S n' => String "0" (zeros n') end.

Definition appendInt (x : Z) (width : nat) : string :=
  let d := decimal (Z.abs_N x) in
  (if x <? 0 then "-" else "") +:+ zeros (width - String.length d) +:+ d.

(** [t.Format("20060102T150405")]: year (4 digits), month, day, a literal T,
    hour, minute, second (2 digits each).  Nothing below the second is
    shown. *)
Definition time_Format (t : Time) : string :=
  let s := wallSec t in
  let '(y, m, d) := civil_of_days (s `div` 86400) in
  let r := s `mod` 86400 in
  appendInt y 4 +:+ appendInt m 2 +:+ appendInt d 2 +:+ "T"
    +:+ appendInt (r `div` 3600) 2 +:+ appendInt ((r `mod` 3600) `div` 60) 2
    +:+ appendInt (r `mod` 60) 2.

(** ** The entropy source: [crypto/rand.Read]

    Contract modelled (crypto/rand as documented since Go 1.24): [Read]
    fills the whole slice with bytes of the operating system's source and
    never returns an error; when the source cannot deliver, the program
    is crashed irrecoverably.  [main.go] accordingly drops both results of
    the call.  The pool holds the bytes the source will still deliver; a
    request for more than it holds is the failure of the source. *)

Definition entropy := list byte.

Definition rand_Read (b : list byte) (e : entropy) : result (list byte * entropy) :=
  let n := length b in
  if (n <=? length e)%nat then Ret (take n e, drop n e)
  else Crash EntropyFailure.

(** [make([]byte, n)]: [n] zero bytes; panics when [n] is negative. *)
Definition make_bytes (n : Z) : result (list byte) :=
  if n <? 0 then Crash NegativeLen else Ret (replicate (Z.to_nat n) x00).

(** ** [generateObjectKey] (main.go, 178-189) *)

Definition generateObjectKey (now : Z) (Local : Location) (e : entropy)
  : result (string * entropy) :=
  let timestamp := time_Format (time_Now now Local) in
  hashBytes ← make_bytes 16;
  '(hashBytes, e') ← rand_Read hashBytes e;
  let randomHash := fmt_x hashBytes in
  mret (timestamp +:+ "/" +:+ randomHash, e').

Arguments generateObjectKey : simpl never.

(** ** [generateRandomString] (main.go, 192-200) *)

Definition charset : string :=
  "abcdefghijklmnopqrstuvwxyzABCDEFGHIJKLMNOPQRSTUVWXYZ0123456789".

Definition charset_bytes : list byte := list_byte_of_string charset.

(** [byte(len(charset))]: the conversion of the constant 62 to a byte. *)
Definition charset_len : N := (N.of_nat (String.length charset) mod 256)%N.

(** The loop [for i := 0; i < length; i++ { b[i] = charset[b[i]%62] }],
    [n] iterations from index [i]; indexing outside a slice or the string
    panics. *)
Fixpoint charset_loop (n : nat) (i : nat) (b : list byte) : result (list byte) :=
  match n with
  | O => Ret b
  | S n' =>
      match b !! i with
      | None => Crash IndexOutOfRange
      | Some x =>
          match charset_bytes !! N.to_nat (byte_val x mod charset_len) with
          | None => Crash IndexOutOfRange
          | Some c => charset_loop n' (S i) (<[i:=c]> b)
          end
      end
  end.

Definition generateRandomString (length : Z) (e : entropy)
  : result (string * entropy) :=
  b ← make_bytes length;
  '(b, e') ← rand_Read b e;
  b ← charset_loop (Z.to_nat length) 0 b;
  mret (string_of_list_byte b, e').

Arguments generateRandomString : simpl never.

(** The 62-symbol alphabet a-z, A-Z, 0-9. *)
Definition is_alnum (c : ascii) : bool :=
  let n := N_of_ascii c in
  ((97 <=? n) && (n <=? 122) || (65 <=? n) && (n <=? 90)
   || (48 <=? n) && (n <=? 57))%N.

(** ** Machine integers

    Go's [int] is 64 bits wide on the platforms the service runs on. *)

Definition minInt : Z := - 2 ^ 63.
Definition maxInt : Z := 2 ^ 63 - 1.
Definition wrap64 (z : Z) : Z := (z + 2 ^ 63) `mod` 2 ^ 64 - 2 ^ 63.
Definition int_sub (a b : Z) : Z := wrap64 (a - b).
Definition int_add (a b : Z) : Z := wrap64 (a + b).

(** ** Requests, responses and the world around the handler *)

Record Request := mkRequest { Method : string; ReqBody : string }.

Record Payload := mkPayload { Number : Z }.

(** [TimeTaken] is kept as the duration in nanoseconds; the program
    stores its rendering [timeTaken.String()]. *)
Record ResponsePayload := mkResponsePayload {
  ObjectsWritten : Z;
  TimeTaken : Z;
  Errors : list string
}.

Inductive body :=
| TextBody (msg : string)            (* http.Error *)
| JsonBody (p : ResponsePayload).    (* json.NewEncoder(w).Encode *)

Record Response := mkResponse { StatusCode : Z; Body : body }.

Definition StatusOK : Z := 200.
Definition StatusBadRequest : Z := 400.
Definition StatusMethodNotAllowed : Z := 405.
Definition StatusInternalServerError : Z := 500.
Definition MethodPost : string := "POST".

(** What the handler cannot see into: the JSON number a body decodes to (or
    the decoder's error), the local time zone, and what the storage backend
    answers to the write and to the close of each task's stream ([None] is a
    nil error).  A deadline that expires shows up as such an error. *)
Record World := mkWorld {
  json_number : string → string + Z;
  Local : Location;
  write_err : nat → option string;
  close_err : nat → option string
}.

(** [json.NewDecoder(r.Body).Decode(&payload)]: a number that does not fit
    an [int] is a decoding error. *)
Definition json_Decode (W : World) (b : string) : string + Payload :=
  match json_number W b with
  | inl err => inl err
  | inr n =>
      if (minInt <=? n) && (n <=? maxInt) then inr (mkPayload n)
      else inl "json: cannot unmarshal number into Go struct field Payload.number of type int"%string
  end.

(** ** One write task: the goroutine body (main.go, 118-143)

    A task is at one of the statements of the body.  [TDone] is the deferred
    [wg.Done()], [TExited] the finished goroutine; both remember the failure
    message the task sent, if any. *)

Inductive task :=
| TKey                                          (* 122 *)
| TContent (key : string)                       (* 125 *)
| TNewWriter (key content : string)             (* 128 *)
| TWriteString (key content : string)           (* 131 *)
| TSendWriteErr (key err : string)              (* 132 *)
| TBestEffortClose (key msg : string)           (* 133 *)
| TClose (key : string)                         (* 138 *)
| TSendCloseErr (key err : string)              (* 139 *)
| TLogSuccess (key : string)                    (* 142 *)
| TDone (sent : option string)                  (* 119, deferred *)
| TExited (sent : option string).

(** What one step of a task does to the world outside the task. *)
Inductive action :=
| AGenerate (n : nat) (pool' : entropy)   (* n random bytes drawn *)
| ACrash (c : crash)
| ANewWriter (key : string)
| AWriteString (key content : string) (r : option string)
| AWriterClose (key : string) (r : option string)
| ASend (msg : string)                    (* errs <- ... *)
| ALog (msg : string)
| AWgDone.

Definition write_failure (key err : string) : string :=
  "failed to write to GCS object " +:+ key +:+ ": " +:+ err.
Definition close_failure (key err : string) : string :=
  "failed to close GCS object writer for " +:+ key +:+ ": " +:+ err.

Definition task_step (W : World) (i : nat) (now : Z) (pool : entropy) (t : task)
  : option (task * action) :=
  match t with
  | TKey =>
      match generateObjectKey now (Local W) pool with
      | Ret (objectKey, pool') => Some (TContent objectKey, AGenerate 16 pool')
      | Crash c => Some (TKey, ACrash c)
      end
  | TContent key =>
      match generateRandomString 1024 pool with
      | Ret (randomString, pool') => Some (TNewWriter key randomString, AGenerate 1024 pool')
      | Crash c => Some (TContent key, ACrash c)
      end
  | TNewWriter key content => Some (TWriteString key content, ANewWriter key)
  | TWriteString key content =>
      match write_err W i with
      | Some err => Some (TSendWriteErr key err, AWriteString key content (Some err))
      | None => Some (TClose key, AWriteString key content None)
      end
  | TSendWriteErr key err =>
      Some (TBestEffortClose key (write_failure key err), ASend (write_failure key err))
  | TBestEffortClose key msg =>
      Some (TDone (Some msg), AWriterClose key (close_err W i))
  | TClose key =>
      match close_err W i with
      | Some err => Some (TSendCloseErr key err, AWriterClose key (Some err))
      | None => Some (TLogSuccess key, AWriterClose key None)
      end
  | TSendCloseErr key err =>
      Some (TDone (Some (close_failure key err)), ASend (close_failure key err))
  | TLogSuccess key =>
      Some (TDone None, ALog ("Successfully created object: " +:+ key))
  | TDone sent => Some (TExited sent, AWgDone)
  | TExited _ => None
  end.

(** A task run on its own, with nothing to block it: the actions it takes,
    in order, and where it ends.  A crash ends the run. *)
Fixpoint task_run (W : World) (i : nat) (now : Z) (fuel : nat) (pool : entropy)
    (t : task) : list action * task :=
  match fuel with
  | O => ([], t)
  | S fuel' =>
      match task_step W i now pool t with
      | None => ([], t)
      | Some (t', ACrash c) => ([ACrash c], t')
      | Some (t', a) =>
          let pool' := match a with AGenerate _ p => p | _ => pool end in
          let '(acts, t'') := task_run W i now fuel' pool' t' in
          (a :: acts, t'')
      end
  end.

Definition is_send (a : action) : bool :=
  match a with ASend _ => true | _ => false end.

Definition sends (acts : list action) : list string :=
  omap (λ a, match a with ASend m => Some m | _ => None end) acts.

(** ** The handler and its tasks as a transition system
    ([handleRequest], main.go, 80-175)

    The handler goroutine is at one of its statements; the goroutines it
    has spawned are in [tasks], in spawning order.  The channel [errs], the
    wait group, the clock and the entropy pool are shared.  Channel and
    wait-group operations synchronise, so the runs of the program are the
    interleavings of whole statements. *)

Inductive hpc :=
| HMethod                (* 82: r.Method != http.MethodPost *)
| HDecode                (* 89: Decode(&payload) *)
| HValidate              (* 96: payload.Number <= 0 *)
| HBucket                (* 101-108: bucket handle, context with timeout *)
| HStartTime             (* 111: startTime := time.Now() *)
| HMakeChan              (* 113-114: wg; errs := make(chan error, Number) *)
| HLoop (i : Z)          (* 116-118: i < Number; wg.Add(1); go func; i++ *)
| HWait                  (* 146: wg.Wait() *)
| HCloseChan             (* 147: close(errs) *)
| HSince                 (* 150: timeTaken := time.Since(startTime) *)
| HRange                 (* 154-156: for err := range errs *)
| HRespond               (* 159-174 *)
| HReturned.

#[global] Instance hpc_eq_dec : EqDecision hpc.
Proof. solve_decision. Defined.

(** A buffered channel of error messages.  The zero value (no buffer, not
    closed) is the nil channel, on which a send blocks. *)
Record chan := mkChan { buf : list string; cap : nat; closed : bool }.
Definition nil_chan : chan := mkChan [] 0 false.

Inductive handler_event :=
| HeError (status : Z) (msg : string)    (* http.Error *)
| HeBucket                               (* gcsClient.Bucket, context.WithTimeout *)
| HeNow                                  (* time.Now() *)
| HeMakeChan (capacity : Z)
| HeGo (i : Z)                           (* wg.Add(1); go func() *)
| HeWaitReturns
| HeCloseChan
| HeSince                                (* time.Since(startTime) *)
| HeRecv (msg : string)
| HeRespond (status : Z).

Inductive event :=
| EvHandler (e : handler_event)
| EvTask (i : nat) (a : action).

Record state := mkState {
  pc : hpc;
  payload : Payload;
  startTime : Z;
  timeTaken : Z;
  errorMessages : list string;
  errs : chan;
  wg : Z;
  tasks : list task;
  now : Z;                       (* the clock, nanoseconds *)
  pool : entropy;
  response : option Response;
  trace : list (Z * event);      (* newest first, stamped with the clock *)
  crashed : option crash
}.

Definition set_pc (v : hpc) (s : state) : state :=
  mkState v (payload s) (startTime s) (timeTaken s) (errorMessages s) (errs s)
    (wg s) (tasks s) (now s) (pool s) (response s) (trace s) (crashed s).
Definition set_payload (v : Payload) (s : state) : state :=
  mkState (pc s) v (startTime s) (timeTaken s) (errorMessages s) (errs s)
    (wg s) (tasks s) (now s) (pool s) (response s) (trace s) (crashed s).
Definition set_startTime (v : Z) (s : state) : state :=
  mkState (pc s) (payload s) v (timeTaken s) (errorMessages s) (errs s)
    (wg s) (tasks s) (now s) (pool s) (response s) (trace s) (crashed s).
Definition set_timeTaken (v : Z) (s : state) : state :=
  mkState (pc s) (payload s) (startTime s) v (errorMessages s) (errs s)
    (wg s) (tasks s) (now s) (pool s) (response s) (trace s) (crashed s).
Definition set_errorMessages (v : list string) (s : state) : state :=
  mkState (pc s) (payload s) (startTime s) (timeTaken s) v (errs s)
    (wg s) (tasks s) (now s) (pool s) (response s) (trace s) (crashed s).
Definition set_errs (v : chan) (s : state) : state :=
  mkState (pc s) (payload s) (startTime s) (timeTaken s) (errorMessages s) v
    (wg s) (tasks s) (now s) (pool s) (response s) (trace s) (crashed s).
Definition set_wg (v : Z) (s : state) : state :=
  mkState (pc s) (payload s) (startTime s) (timeTaken s) (errorMessages s) (errs s)
    v (tasks s) (now s) (pool s) (response s) (trace s) (crashed s).
Definition set_tasks (v : list task) (s : state) : state :=
  mkState (pc s) (payload s) (startTime s) (timeTaken s) (errorMessages s) (errs s)
    (wg s) v (now s) (pool s) (response s) (trace s) (crashed s).
Definition set_now (v : Z) (s : state) : state :=
  mkState (pc s) (payload s) (startTime s) (timeTaken s) (errorMessages s) (errs s)
    (wg s) (tasks s) v (pool s) (response s) (trace s) (crashed s).
Definition set_pool (v : entropy) (s : state) : state :=
  mkState (pc s) (payload s) (startTime s) (timeTaken s) (errorMessages s) (errs s)
    (wg s) (tasks s) (now s) v (response s) (trace s) (crashed s).
Definition set_response (v : option Response) (s : state) : state :=
  mkState (pc s) (payload s) (startTime s) (timeTaken s) (errorMessages s) (errs s)
    (wg s) (tasks s) (now s) (pool s) v (trace s) (crashed s).
Definition set_crashed (v : option crash) (s : state) : state :=
  mkState (pc s) (payload s) (startTime s) (timeTaken s) (errorMessages s) (errs s)
    (wg s) (tasks s) (now s) (pool s) (response s) (trace s) v.

(** Record an event at the current clock reading. *)
Definition emit (e : event) (s : state) : state :=
  mkState (pc s) (payload s) (startTime s) (timeTaken s) (errorMessages s) (errs s)
    (wg s) (tasks s) (now s) (pool s) (response s) ((now s, e) :: trace s) (crashed s).

(** The handler is entered with clock [now0] and entropy pool [pool0]. *)
Definition init (now0 : Z) (pool0 : entropy) : state :=
  mkState HMethod (mkPayload 0) 0 0 [] nil_chan 0 [] now0 pool0 None [] None.

(** [http.Error(w, msg, code); return]. *)
Definition http_Error (msg : string) (code : Z) (s : state) : state :=
  set_pc HReturned
    (set_response (Some (mkResponse code (TextBody msg)))
       (emit (EvHandler (HeError code msg)) s)).

(** One statement of the handler goroutine; [None] when it is blocked
    ([wg.Wait()] with a positive counter, a receive from an empty open
    channel) or has returned. *)
Definition handler_step (W : World) (req : Request) (s : state) : option state :=
  match pc s with
  | HMethod =>
      if decide (Method req = MethodPost) then Some (set_pc HDecode s)
      else Some (http_Error "Only POST requests are accepted" StatusMethodNotAllowed s)
  | HDecode =>
      match json_Decode W (ReqBody req) with
      | inl err => Some (http_Error ("Invalid JSON payload: " +:+ err) StatusBadRequest s)
      | inr p => Some (set_pc HValidate (set_payload p s))
      end
  | HValidate =>
      if Number (payload s) <=? 0
      then Some (http_Error "The 'number' value must be a positive integer"
                   StatusBadRequest s)
      else Some (set_pc HBucket s)
  | HBucket => Some (set_pc HStartTime (emit (EvHandler HeBucket) s))
  | HStartTime =>
      Some (set_pc HMakeChan (set_startTime (now s) (emit (EvHandler HeNow) s)))
  | HMakeChan =>
      Some (set_pc (HLoop 0)
              (set_wg 0
                 (set_errs (mkChan [] (Z.to_nat (Number (payload s))) false)
                    (emit (EvHandler (HeMakeChan (Number (payload s)))) s))))
  | HLoop i =>
      if i <? Number (payload s)
      then Some (set_pc (HLoop (int_add i 1))
                   (set_tasks (tasks s ++ [TKey])
                      (set_wg (int_add (wg s) 1) (emit (EvHandler (HeGo i)) s))))
      else Some (set_pc HWait s)
  | HWait =>
      if decide (wg s = 0)
      then Some (set_pc HCloseChan (emit (EvHandler HeWaitReturns) s))
      else None
  | HCloseChan =>
      Some (set_pc HSince
              (set_errs (mkChan (buf (errs s)) (cap (errs s)) true)
                 (emit (EvHandler HeCloseChan) s)))
  | HSince =>
      Some (set_pc HRange
              (set_timeTaken (now s - startTime s) (emit (EvHandler HeSince) s)))
  | HRange =>
      match buf (errs s) with
      | err :: rest =>
          Some (set_errorMessages (errorMessages s ++ [err])
                  (set_errs (mkChan rest (cap (errs s)) (closed (errs s)))
                     (emit (EvHandler (HeRecv err)) s)))
      | [] => if closed (errs s) then Some (set_pc HRespond s) else None
      end
  | HRespond =>
      let response :=
        mkResponsePayload
          (int_sub (Number (payload s)) (Z.of_nat (length (errorMessages s))))
          (timeTaken s) (errorMessages s) in
      let status :=
        if 0 <? Z.of_nat (length (errorMessages s))
        then StatusInternalServerError else StatusOK in
      Some (set_pc HReturned
              (set_response (Some (mkResponse status (JsonBody response)))
                 (emit (EvHandler (HeRespond status)) s)))
  | HReturned => None
  end.

(** The effect of a task's action on the shared state; [None] when the
    action cannot be taken now (a send on a full channel blocks). *)
Definition apply_action (a : action) (s : state) : option state :=
  match a with
  | AGenerate _ pool' => Some (set_pool pool' s)
  | ACrash c => Some (set_crashed (Some c) s)
  | ASend msg =>
      if closed (errs s) then Some (set_crashed (Some SendOnClosed) s)
      else if decide (length (buf (errs s)) < cap (errs s))%nat
           then Some (set_errs (mkChan (buf (errs s) ++ [msg]) (cap (errs s)) false) s)
           else None
  | AWgDone =>
      if wg s - 1 <? 0 then Some (set_crashed (Some NegativeCounter) s)
      else Some (set_wg (wg s - 1) s)
  | ANewWriter _ | AWriteString _ _ _ | AWriterClose _ _ | ALog _ => Some s
  end.

(** One statement of task [i]. *)
Definition task_sys_step (W : World) (i : nat) (s : state) : option state :=
  t ← tasks s !! i;
  '(t', a) ← task_step W i (now s) (pool s) t;
  s' ← apply_action a s;
  Some (emit (EvTask i a) (set_tasks (<[i:=t']> (tasks s)) s')).

Inductive actor := Handler | Task (i : nat).

(** The clock advances by [d] nanoseconds, then [a] runs one statement.
    Nothing runs in a crashed program. *)
Definition step (W : World) (req : Request) (a : actor) (d : N) (s : state)
  : option state :=
  match crashed s with
  | Some _ => None
  | None =>
      let s := set_now (now s + Z.of_N d) s in
      match a with
      | Handler => handler_step W req s
      | Task i => task_sys_step W i s
      end
  end.

(** A schedule says who runs next, and after how long. *)
Fixpoint run (W : World) (req : Request) (sched : list (actor * N)) (s : state)
  : option state :=
  match sched with
  | [] => Some s
  | (a, d) :: rest => s' ← step W req a d s; run W req rest s'
  end.

Definition step_rel (W : World) (req : Request) (s s' : state) : Prop :=
  ∃ a d, step W req a d s = Some s'.

Definition reachable (W : World) (req : Request) (now0 : Z) (pool0 : entropy)
    (s : state) : Prop :=
  rtc (step_rel W req) (init now0 pool0) s.

(** * Facts about the generators *)

Section generators.

Implicit Types (b e : list byte) (s : string).

Lemma length_string_of_list_byte b :
  String.length (string_of_list_byte b) = length b.
Proof.
  unfold string_of_list_byte.
  induction b as [|x b IH]; simpl; [done | by rewrite IH].
Qed.

Lemma chars_string_of_list_byte b :
  chars (string_of_list_byte b) = ascii_of_byte <$> b.
Proof.
  unfold chars, string_of_list_byte.
  induction b as [|x b IH]; simpl; [done | by rewrite IH].
Qed.

Lemma length_fmt_x b : String.length (fmt_x b) = (2 * length b)%nat.
Proof. induction b as [|x b IH]; simpl; [done | rewrite IH; lia]. Qed.

Lemma fmt_x_lower_hex b : Forall (λ c, is_lower_hex c = true) (chars (fmt_x b)).
Proof.
  unfold chars. induction b as [|x b IH]; simpl; [constructor |].
  repeat constructor; [by destruct x | by destruct x | exact IH].
Qed.

(** The symbol the loop writes for a random byte [x]. *)
Definition pick (x : byte) : byte :=
  default x00 (charset_bytes !! N.to_nat (byte_val x mod charset_len)).

Lemma charset_index x :
  charset_bytes !! N.to_nat (byte_val x mod charset_len) = Some (pick x).
Proof. by destruct x. Qed.

Lemma pick_alnum x : is_alnum (ascii_of_byte (pick x)) = true.
Proof. by destruct x. Qed.

Lemma charset_loop_spec n : ∀ i b,
  (i + n = length b)%nat →
  charset_loop n i b = Ret (take i b ++ (pick <$> drop i b)).
Proof.
  induction n as [|n IH]; intros i b Hlen; simpl.
  - rewrite drop_ge by lia. rewrite take_ge by lia. by rewrite app_nil_r.
  - destruct (lookup_lt_is_Some_2 b i) as [x Hx]; [lia |].
    rewrite Hx, charset_index, IH by (rewrite length_insert; lia).
    f_equal. rewrite (drop_S b x i Hx), fmap_cons, cons_middle, app_assoc.
    f_equal.
    + rewrite (take_S_r (<[i:=pick x]> b) i (pick x)).
      * by rewrite take_insert_ge by lia.
      * apply list_lookup_insert_eq. by eapply lookup_lt_Some.
    + by rewrite drop_insert_lt by lia.
Qed.

Lemma make_bytes_nonneg n :
  0 ≤ n → make_bytes n = Ret (replicate (Z.to_nat n) x00).
Proof. intros Hn. unfold make_bytes. by rewrite (proj2 (Z.ltb_ge n 0) Hn). Qed.

Lemma rand_Read_enough b e :
  (length b ≤ length e)%nat →
  rand_Read b e = Ret (take (length b) e, drop (length b) e).
Proof. intros H. unfold rand_Read. by rewrite (proj2 (Nat.leb_le _ _) H). Qed.

Lemma rand_Read_short b e :
  (length e < length b)%nat → rand_Read b e = Crash EntropyFailure.
Proof. intros H. unfold rand_Read. by rewrite (proj2 (Nat.leb_gt _ _) H). Qed.

Lemma generateRandomString_enough n e :
  0 ≤ n → (Z.to_nat n ≤ length e)%nat →
  generateRandomString n e
  = Ret (string_of_list_byte (pick <$> take (Z.to_nat n) e), drop (Z.to_nat n) e).
Proof.
  intros Hn He. unfold generateRandomString.
  rewrite make_bytes_nonneg by done. simpl.
  rewrite rand_Read_enough by (by rewrite length_replicate).
  rewrite length_replicate. simpl.
  rewrite charset_loop_spec by (rewrite length_take; lia).
  by rewrite take_0, drop_0.
Qed.

Lemma generateRandomString_short n e :
  0 ≤ n → (length e < Z.to_nat n)%nat →
  generateRandomString n e = Crash EntropyFailure.
Proof.
  intros Hn He. unfold generateRandomString.
  rewrite make_bytes_nonneg by done. simpl.
  by rewrite rand_Read_short by (by rewrite length_replicate).
Qed.

Lemma generateRandomString_cases n e :
  0 ≤ n →
  generateRandomString n e = Crash EntropyFailure ∧ (length e < Z.to_nat n)%nat
  ∨ (Z.to_nat n ≤ length e)%nat
    ∧ generateRandomString n e
      = Ret (string_of_list_byte (pick <$> take (Z.to_nat n) e),
             drop (Z.to_nat n) e).
Proof.
  intros Hn. destruct (decide (Z.to_nat n ≤ length e)%nat).
  - right. split; [done | by apply generateRandomString_enough].
  - left. split; [apply generateRandomString_short |]; [done | lia..].
Qed.

Lemma generateObjectKey_enough now0 L e :
  (16 ≤ length e)%nat →
  generateObjectKey now0 L e
  = Ret (time_Format (time_Now now0 L) +:+ "/" +:+ fmt_x (take 16 e), drop 16 e).
Proof.
  intros He. unfold generateObjectKey. simpl.
  by rewrite rand_Read_enough.
Qed.

Lemma generateObjectKey_short now0 L e :
  (length e < 16)%nat → generateObjectKey now0 L e = Crash EntropyFailure.
Proof.
  intros He. unfold generateObjectKey. simpl.
  by rewrite rand_Read_short.
Qed.

Lemma generateObjectKey_cases now0 L e :
  generateObjectKey now0 L e = Crash EntropyFailure ∧ (length e < 16)%nat
  ∨ (16 ≤ length e)%nat
    ∧ generateObjectKey now0 L e
      = Ret (time_Format (time_Now now0 L) +:+ "/" +:+ fmt_x (take 16 e),
             drop 16 e).
Proof.
  destruct (decide (16 ≤ length e)%nat).
  - right. split; [done | by apply generateObjectKey_enough].
  - left. split; [apply generateObjectKey_short |]; lia.
Qed.

Lemma random_string_alnum b :
  Forall (λ c, is_alnum c = true) (chars (string_of_list_byte (pick <$> b))).
Proof.
  rewrite chars_string_of_list_byte, <- list_fmap_compose.
  apply Forall_fmap, Forall_forall. intros x _. apply pick_alnum.
Qed.

(** The alphabet is the 62 alphanumeric symbols, each once. *)
Lemma charset_alnum :
  length (chars charset) = 62%nat ∧ NoDup (chars charset)
  ∧ ∀ c, is_alnum c = true ↔ c ∈ chars charset.
Proof.
  split; [done |]. split.
  - apply (bool_decide_unpack _). by vm_compute.
  - intros c. split.
    + destruct c as [[] [] [] [] [] [] [] []]; intros H; vm_compute in H;
        try discriminate H; apply (bool_decide_unpack _); by vm_compute.
    + intros H.
      assert (Forall (λ c, is_alnum c = true) (chars charset)) as HF
        by (unfold chars, charset; simpl; repeat constructor).
      rewrite Forall_forall in HF. by apply HF.
Qed.

End generators.

(** * Sums over the tasks *)

Definition total (f : task → nat) (ts : list task) : nat := sum_list (f <$> ts).

Lemma total_nil f : total f [] = 0%nat.
Proof. done. Qed.

Lemma sum_list_app (l1 l2 : list nat) :
  sum_list (l1 ++ l2) = (sum_list l1 + sum_list l2)%nat.
Proof. induction l1 as [|x l1 IH]; simpl; lia. Qed.

Lemma total_app f ts1 ts2 : total f (ts1 ++ ts2) = (total f ts1 + total f ts2)%nat.
Proof. unfold total. by rewrite fmap_app, sum_list_app. Qed.

Lemma total_cons f t ts : total f (t :: ts) = (f t + total f ts)%nat.
Proof. done. Qed.

Lemma total_insert f ts i t t' :
  ts !! i = Some t →
  (total f (<[i:=t']> ts) + f t = total f ts + f t')%nat.
Proof.
  intros Hi. pose proof (lookup_lt_Some _ _ _ Hi) as Hlt.
  rewrite insert_take_drop by done.
  rewrite <- (take_drop_middle ts i t Hi) at 3.
  rewrite !total_app, !total_cons. lia.
Qed.

Lemma total_le f g ts : (∀ t, f t ≤ g t)%nat → (total f ts ≤ total g ts)%nat.
Proof.
  intros H. induction ts as [|t ts IH]; [done |].
  rewrite !total_cons. specialize (H t). lia.
Qed.

Lemma total_lt f g ts i t :
  (∀ t, f t ≤ g t)%nat → ts !! i = Some t → (f t < g t)%nat →
  (total f ts < total g ts)%nat.
Proof.
  intros Hle Hi Hlt. rewrite <- (take_drop_middle ts i t Hi), !total_app.
  pose proof (total_le f g (take i ts) Hle).
  pose proof (total_le f g (drop (S i) ts) Hle).
  rewrite !total_cons. lia.
Qed.

Lemma total_le_length f ts : (∀ t, f t ≤ 1)%nat → (total f ts ≤ length ts)%nat.
Proof.
  intros H. induction ts as [|t ts IH]; [done |].
  rewrite total_cons. specialize (H t). simpl. lia.
Qed.

Lemma total_zero f ts i t :
  total f ts = 0%nat → ts !! i = Some t → f t = 0%nat.
Proof.
  intros H0 Hi. rewrite <- (take_drop_middle ts i t Hi) in H0.
  rewrite total_app, total_cons in H0. lia.
Qed.

(** A sum over the tasks whose summand is fixed by the task's index. *)
Lemma total_indexed f (g : nat → nat) ts :
  (∀ i t, ts !! i = Some t → f t = g i) →
  total f ts = sum_list (g <$> seq 0 (length ts)).
Proof.
  induction ts as [|t ts IH] using rev_ind; intros H; [done |].
  rewrite total_app, length_app, seq_app, fmap_app, sum_list_app.
  rewrite IH.
  - rewrite total_cons, total_nil. simpl. f_equal.
    rewrite (H (length ts) t); [lia |].
    by rewrite lookup_app_r, Nat.sub_diag by lia.
  - intros i t' Hi. apply H. by rewrite lookup_app_l by (by eapply lookup_lt_Some).
Qed.

Lemma bind_insert_perm {B} (f : task → list B) ts i t t' :
  ts !! i = Some t →
  f t ++ (<[i:=t']> ts ≫= f) ≡ₚ f t' ++ (ts ≫= f).
Proof.
  intros Hi. pose proof (lookup_lt_Some _ _ _ Hi) as Hlt.
  rewrite insert_take_drop by done.
  rewrite <- (take_drop_middle ts i t Hi) at 3.
  rewrite !bind_app, !bind_cons.
  rewrite !(Permutation_app_comm (take i ts ≫= f)), <- !app_assoc.
  rewrite (Permutation_app_swap_app (f t)).
  rewrite (Permutation_app_swap_app (f t') (f t)).
  done.
Qed.

Lemma length_bind {B} (f : task → list B) ts :
  length (ts ≫= f) = total (λ t, length (f t)) ts.
Proof.
  induction ts as [|t ts IH]; [done |].
  by rewrite bind_cons, length_app, IH, total_cons.
Qed.

(** * Machine arithmetic stays exact in the handler *)

Lemma wrap64_small z : minInt ≤ z ≤ maxInt → wrap64 z = z.
Proof.
  unfold minInt, maxInt, wrap64. intros H.
  rewrite Z.mod_small; lia.
Qed.

(** * What a task has done so far *)

Definition exited (t : task) : bool :=
  match t with TExited _ => true | _ => false end.

Definition alive (t : task) : nat := if exited t then 0 else 1.

(** The messages the task has put on the channel. *)
Definition reported (t : task) : list string :=
  match t with
  | TBestEffortClose _ msg => [msg]
  | TDone (Some msg) | TExited (Some msg) => [msg]
  | _ => []
  end.

(** The task is at a send statement. *)
Definition sending (t : task) : bool :=
  match t with TSendWriteErr _ _ | TSendCloseErr _ _ => true | _ => false end.

Lemma reported_or_sending t :
  (length (reported t) + (if sending t then 1 else 0) ≤ 1)%nat.
Proof. destruct t as [| | | | | | | | |[]|[]]; simpl; lia. Qed.

Lemma sending_room ts i t :
  ts !! i = Some t → sending t = true →
  (length (ts ≫= reported) < length ts)%nat.
Proof.
  intros Hi Hs. rewrite length_bind.
  eapply Nat.lt_le_trans; [| apply (total_le_length
    (λ t, length (reported t) + (if sending t then 1 else 0))%nat);
    apply reported_or_sending].
  apply (total_lt _ _ ts i t); [intros; lia | done |]. rewrite Hs. lia.
Qed.

(** * Invariants of the handler *)

Section invariants.

Context (W : World) (req : Request) (now0 : Z) (pool0 : entropy).

(** The requests that pass the three checks of lines 82-99, with the
    payload they decode to. *)
Definition accepted : option Payload :=
  if decide (Method req = MethodPost) then
    match json_Decode W (ReqBody req) with
    | inr p => if Number p <=? 0 then None else Some p
    | inl _ => None
    end
  else None.

(** Task [i] fails when the backend answers its write or, the write having
    succeeded, its close with an error. *)
Definition fails (i : nat) : bool :=
  match write_err W i, close_err W i with
  | None, None => false
  | _, _ => true
  end.

(** The failure message task [i] reports is about the key it generated. *)
Definition outcome_ok (i : nat) (sent : option string) : Prop :=
  match sent with
  | None => write_err W i = None ∧ close_err W i = None
  | Some msg =>
      ∃ key,
        (∃ err, write_err W i = Some err ∧ msg = write_failure key err)
        ∨ (write_err W i = None
           ∧ ∃ err, close_err W i = Some err ∧ msg = close_failure key err)
  end.

(** Where a task stands agrees with what the backend answered it. *)
Definition task_ok (i : nat) (t : task) : Prop :=
  match t with
  | TKey | TContent _ | TNewWriter _ _ | TWriteString _ _ => True
  | TSendWriteErr _ err => write_err W i = Some err
  | TBestEffortClose key msg =>
      ∃ err, write_err W i = Some err ∧ msg = write_failure key err
  | TClose _ => write_err W i = None
  | TSendCloseErr _ err => write_err W i = None ∧ close_err W i = Some err
  | TLogSuccess _ => write_err W i = None ∧ close_err W i = None
  | TDone sent | TExited sent => outcome_ok i sent
  end.

Definition valid_payload (s : state) : Prop :=
  0 < Number (payload s) ≤ maxInt ∧ accepted = Some (payload s).

(** No storage work has begun. *)
Definition untouched (s : state) : Prop :=
  tasks s = [] ∧ errs s = nil_chan ∧ wg s = 0 ∧ errorMessages s = []
  ∧ pool s = pool0 ∧ crashed s = None.

Definition chan_made (s : state) : Prop :=
  cap (errs s) = Z.to_nat (Number (payload s)).

Definition all_spawned (s : state) : Prop :=
  Z.of_nat (length (tasks s)) = Number (payload s).

Definition all_exited (s : state) : Prop := total alive (tasks s) = 0%nat.

(** The response of an accepted request. *)
Definition final_response (s : state) : Response :=
  mkResponse
    (if 0 <? Z.of_nat (length (errorMessages s))
     then StatusInternalServerError else StatusOK)
    (JsonBody (mkResponsePayload
                 (int_sub (Number (payload s)) (Z.of_nat (length (errorMessages s))))
                 (timeTaken s) (errorMessages s))).

(** The status of a rejection. *)
Definition reject_status : Z :=
  if decide (Method req = MethodPost) then StatusBadRequest
  else StatusMethodNotAllowed.

Definition pc_inv (s : state) : Prop :=
  match pc s with
  | HMethod => untouched s ∧ response s = None
  | HDecode => untouched s ∧ response s = None ∧ Method req = MethodPost
  | HValidate =>
      untouched s ∧ response s = None ∧ Method req = MethodPost
      ∧ json_Decode W (ReqBody req) = inr (payload s)
  | HBucket | HStartTime | HMakeChan =>
      untouched s ∧ response s = None ∧ valid_payload s
  | HLoop i =>
      valid_payload s ∧ chan_made s ∧ closed (errs s) = false
      ∧ errorMessages s = [] ∧ response s = None
      ∧ Z.of_nat (length (tasks s)) = i ∧ i ≤ Number (payload s)
  | HWait =>
      valid_payload s ∧ chan_made s ∧ closed (errs s) = false
      ∧ errorMessages s = [] ∧ response s = None ∧ all_spawned s
  | HCloseChan =>
      valid_payload s ∧ chan_made s ∧ closed (errs s) = false
      ∧ errorMessages s = [] ∧ response s = None ∧ all_spawned s
      ∧ all_exited s
  | HSince =>
      valid_payload s ∧ chan_made s ∧ closed (errs s) = true
      ∧ errorMessages s = [] ∧ response s = None ∧ all_spawned s
      ∧ all_exited s
  | HRange =>
      valid_payload s ∧ chan_made s ∧ closed (errs s) = true
      ∧ response s = None ∧ all_spawned s ∧ all_exited s
  | HRespond =>
      valid_payload s ∧ chan_made s ∧ closed (errs s) = true
      ∧ response s = None ∧ all_spawned s ∧ all_exited s
      ∧ buf (errs s) = []
  | HReturned =>
      match accepted with
      | None =>
          untouched s
          ∧ ∃ msg, response s = Some (mkResponse reject_status (TextBody msg))
      | Some p =>
          valid_payload s ∧ chan_made s ∧ all_spawned s ∧ all_exited s
          ∧ buf (errs s) = [] ∧ response s = Some (final_response s)
      end
  end.

Definition inv (s : state) : Prop :=
  pc_inv s
  ∧ wg s = Z.of_nat (total alive (tasks s))
  ∧ (length (tasks s) ≤ cap (errs s))%nat
  ∧ (closed (errs s) = true → all_exited s)
  ∧ errorMessages s ++ buf (errs s) ≡ₚ tasks s ≫= reported
  ∧ (∀ c, crashed s = Some c → c = EntropyFailure)
  ∧ (∀ i t, tasks s !! i = Some t → task_ok i t).

Lemma inv_init : inv (init now0 pool0).
Proof.
  unfold inv, pc_inv, untouched, all_exited; simpl.
  split_and!; done.
Qed.

Lemma inv_set_now v s : inv (set_now v s) ↔ inv s.
Proof. by destruct s. Qed.

Lemma accepted_post p : accepted = Some p →
  Method req = MethodPost ∧ json_Decode W (ReqBody req) = inr p ∧ 0 < Number p.
Proof.
  unfold accepted. intros H. repeat case_match; simplify_eq. split_and!; [done..|lia].
Qed.

Lemma json_Decode_range p :
  json_Decode W (ReqBody req) = inr p → minInt ≤ Number p ≤ maxInt.
Proof.
  unfold json_Decode. intros H. repeat case_match; simplify_eq. simpl. lia.
Qed.

Lemma accepted_None_method : Method req ≠ MethodPost →
  accepted = None ∧ reject_status = StatusMethodNotAllowed.
Proof. intros H. unfold accepted, reject_status. by rewrite !decide_False. Qed.

Lemma accepted_None_decode err :
  Method req = MethodPost → json_Decode W (ReqBody req) = inl err →
  accepted = None ∧ reject_status = StatusBadRequest.
Proof.
  intros Hm Hd. unfold accepted, reject_status.
  by rewrite !decide_True, ?Hd.
Qed.

Lemma accepted_None_number p :
  Method req = MethodPost → json_Decode W (ReqBody req) = inr p →
  Number p ≤ 0 → accepted = None ∧ reject_status = StatusBadRequest.
Proof.
  intros Hm Hd Hn. unfold accepted, reject_status.
  rewrite !decide_True, ?Hd by done. by rewrite (proj2 (Z.leb_le _ _) Hn).
Qed.

Lemma accepted_Some p :
  Method req = MethodPost → json_Decode W (ReqBody req) = inr p →
  0 < Number p → accepted = Some p.
Proof.
  intros Hm Hd Hn. unfold accepted.
  rewrite !decide_True, ?Hd by done. by rewrite (proj2 (Z.leb_gt _ _) Hn).
Qed.

Ltac inv_goal :=
  unfold inv, pc_inv, untouched, valid_payload, chan_made, all_spawned,
    all_exited; simpl.
Ltac inv_hyp H :=
  unfold pc_inv, untouched, valid_payload, chan_made, all_spawned,
    all_exited in H; simpl in H.

Lemma inv_handler_step s s' :
  inv s → handler_step W req s = Some s' → inv s'.
Proof.
  intros Hinv Hstep. destruct s as [pc0 pl st tt em ch w ts nw po rs tr cr].
  unfold handler_step in Hstep; simpl in Hstep.
  destruct Hinv as (Hpc & Hwg & Hcap & Hcl & Hperm & Hcr & Htok).
  inv_hyp Hpc. unfold all_exited in Hcl. simpl in Hwg, Hcap, Hcl, Hperm, Hcr, Htok.
  destruct pc0.
  - (* HMethod *)
    destruct Hpc as [(-> & -> & -> & -> & -> & ->) ->].
    case_decide as Hm; simplify_eq.
    + inv_goal. split_and!; done.
    + destruct (accepted_None_method Hm) as [Ha Hr].
      inv_goal. rewrite Ha, Hr. split_and!; eauto.
  - (* HDecode *)
    destruct Hpc as ((-> & -> & -> & -> & -> & ->) & -> & Hm).
    destruct (json_Decode W (ReqBody req)) as [err|p] eqn:Hd; simplify_eq.
    + destruct (accepted_None_decode err Hm Hd) as [Ha Hr].
      inv_goal. rewrite Ha, Hr. split_and!; eauto.
    + inv_goal. split_and!; done.
  - (* HValidate *)
    destruct Hpc as ((-> & -> & -> & -> & -> & ->) & -> & Hm & Hd).
    pose proof (json_Decode_range pl Hd) as Hrange.
    destruct (Number pl <=? 0) eqn:Hn; simplify_eq.
    + apply Z.leb_le in Hn.
      destruct (accepted_None_number pl Hm Hd Hn) as [Ha Hr].
      inv_goal. rewrite Ha, Hr. split_and!; eauto.
    + apply Z.leb_gt in Hn. inv_goal.
      split_and!; try done; try lia. by apply accepted_Some.
  - (* HBucket *)
    simplify_eq. inv_goal. destruct_and!. split_and!; done.
  - (* HStartTime *)
    simplify_eq. inv_goal. destruct_and!. split_and!; done.
  - (* HMakeChan *)
    simplify_eq. inv_goal. destruct_and!. simplify_eq. simpl. split_and!; try done; lia.
  - (* HLoop *)
    destruct Hpc as ((Hn & Ha) & Hcm & Hclosed & -> & -> & Hlen & Hi).
    assert (total alive ts ≤ length ts)%nat as Hal
      by (apply total_le_length; intros t; unfold alive; destruct (exited t); lia).
    destruct (i <? Number pl) eqn:Hlt; simplify_eq.
    + apply Z.ltb_lt in Hlt. unfold int_add.
      rewrite !wrap64_small by (unfold minInt, maxInt in *; lia).
      inv_goal.
      rewrite total_app, length_app, bind_app, total_cons, total_nil,
        app_nil_r; simpl.
      split_and!; try done; try lia.
      * rewrite Hclosed. done.
      * intros j t Hj. apply lookup_app_Some in Hj as [Hj | [_ Hj]];
          [by eapply Htok |].
        apply list_lookup_singleton_Some in Hj as [_ <-]. done.
    + apply Z.ltb_ge in Hlt. inv_goal. split_and!; try done; lia.
  - (* HWait *)
    case_decide as Hw; simplify_eq. inv_goal. destruct_and!.
    split_and!; try done. lia.
  - (* HCloseChan *)
    simplify_eq. inv_goal. destruct_and!. split_and!; done.
  - (* HSince *)
    simplify_eq. inv_goal. destruct_and!. split_and!; done.
  - (* HRange *)
    destruct Hpc as (Hv & Hcm & Hclosed & -> & Hsp & Hex).
    destruct ch as [[|err rest] cp cl]; simpl in *; simplify_eq.
    + inv_goal. destruct Hv. split_and!; try done; lia.
    + inv_goal. destruct Hv. split_and!; try done; try lia. by rewrite <- app_assoc.
  - (* HRespond *)
    destruct Hpc as ((Hn & Ha) & Hcm & Hclosed & -> & Hsp & Hex & Hbuf).
    simplify_eq. inv_goal. rewrite Ha. split_and!; try done; try lia.
  - (* HReturned *)
    done.
Qed.

(** What one step of a task changes, as far as the invariant goes. *)
Lemma task_step_facts i nw po t t' a :
  task_step W i nw po t = Some (t', a) → task_ok i t →
  exited t = false ∧ task_ok i t'
  ∧ match a with
    | AWgDone => exited t' = true ∧ reported t' = reported t
    | ASend m =>
        exited t' = false ∧ sending t = true ∧ reported t = []
        ∧ reported t' = [m]
    | ACrash c => c = EntropyFailure ∧ t' = t
    | _ => exited t' = false ∧ reported t' = reported t ∧ sending t = false
    end.
Proof.
  intros Hstep Hok. destruct t; simpl in Hstep.
  - destruct (generateObjectKey_cases nw (Local W) po) as [[Hg _]|[_ Hg]];
      rewrite Hg in Hstep; simplify_eq; done.
  - destruct (generateRandomString_cases 1024 po) as [[Hg _]|[_ Hg]];
      [lia | ..]; rewrite Hg in Hstep; simplify_eq; done.
  - simplify_eq. done.
  - destruct (write_err W i) eqn:Hw; simplify_eq; done.
  - simplify_eq. simpl in *. eauto 10.
  - simplify_eq. simpl in *. destruct Hok as (err & ? & ->). eauto 10.
  - destruct (close_err W i) eqn:Hc; simplify_eq; done.
  - simplify_eq. simpl in *. destruct Hok. split_and!; eauto 10.
  - simplify_eq. done.
  - simplify_eq. simpl in *. by destruct sent.
  - done.
Qed.

Lemma alive_exited t : alive t = (if exited t then 0 else 1)%nat.
Proof. done. Qed.

Lemma inv_task_step i s s' :
  inv s → task_sys_step W i s = Some s' → inv s'.
Proof.
  intros Hinv Hstep. destruct s as [pc0 pl st tt em ch w ts nw po rs tr cr].
  unfold task_sys_step in Hstep; simpl in Hstep.
  destruct (ts !! i) as [t|] eqn:Hi; [simpl in Hstep | done].
  destruct (task_step W i nw po t) as [[t' a]|] eqn:Hts; [simpl in Hstep | done].
  destruct Hinv as (Hpc & Hwg & Hcap & Hcl & Hperm & Hcr & Htok).
  unfold all_exited in Hcl. simpl in Hwg, Hcap, Hcl, Hperm, Hcr, Htok.
  destruct (task_step_facts i nw po t t' a Hts (Htok i t Hi)) as (Hex & Hok' & Ha).
  assert (alive t = 1%nat) as Halive by (by rewrite alive_exited, Hex).
  assert (0 < total alive ts)%nat as Hpos.
  { destruct (total alive ts) eqn:H0; [| lia].
    pose proof (total_zero _ _ _ _ H0 Hi). lia. }
  assert (closed ch = false) as Hopen.
  { destruct (closed ch); [| done]. specialize (Hcl eq_refl). lia. }
  assert (∀ j u, <[i:=t']> ts !! j = Some u → task_ok j u) as Htok'.
  { intros j u Hj. destruct (decide (i = j)) as [<-|Hne].
    - rewrite list_lookup_insert_eq in Hj by (by eapply lookup_lt_Some).
      by simplify_eq.
    - rewrite list_lookup_insert_ne in Hj by done. by eapply Htok. }
  pose proof (total_insert alive ts i t t' Hi) as Htot.
  pose proof (bind_insert_perm reported ts i t t' Hi) as Hbind.
  assert (pc0 = HWait ∨ ∃ j, pc0 = HLoop j) as Hpc0.
  { inv_hyp Hpc. destruct pc0; eauto; destruct_and?; simplify_eq; try lia.
    destruct accepted; destruct_and?; simplify_eq; lia. }
  assert (∀ s1, pc s1 = pc0 → payload s1 = pl → cap (errs s1) = cap ch →
            closed (errs s1) = false → errorMessages s1 = em →
            response s1 = rs → length (tasks s1) = length ts → pc_inv s1)
    as Hpc'.
  { intros s1 E1 E2 E3 E4 E5 E6 E7. inv_hyp Hpc.
    unfold pc_inv, valid_payload, chan_made, all_spawned.
    rewrite E1, E2, E3, E4, E5, E6, E7.
    destruct Hpc0 as [->|[j ->]]; by rewrite Hopen in Hpc. }
  assert (∀ s1, pc s1 = pc0 → payload s1 = pl → cap (errs s1) = cap ch →
            closed (errs s1) = false → errorMessages s1 = em →
            response s1 = rs → tasks s1 = <[i:=t']> ts →
            wg s1 = Z.of_nat (total alive (tasks s1)) →
            errorMessages s1 ++ buf (errs s1) ≡ₚ tasks s1 ≫= reported →
            (∀ c, crashed s1 = Some c → c = EntropyFailure) → inv s1)
    as Hinv'.
  { intros s1 E1 E2 E3 E4 E5 E6 E7 E8 E9 E10. unfold inv, all_exited.
    split_and!; try done.
    - apply Hpc'; try done. by rewrite E7, length_insert.
    - by rewrite E7, length_insert, E3.
    - by rewrite E4.
    - by rewrite E7. }
  destruct a; simpl in Hstep.
  - (* AGenerate *)
    simplify_eq. destruct Ha as (Hex' & Hrep & _).
    apply Hinv'; simpl; try done.
    + rewrite !alive_exited, Hex, Hex' in Htot. lia.
    + rewrite Hrep in Hbind. apply Permutation_app_inv_l in Hbind.
      by rewrite Hbind.
  - (* ACrash *)
    simplify_eq. destruct Ha as [-> ->].
    rewrite list_insert_id by done.
    apply Hinv'; simpl; try done.
    + by rewrite list_insert_id.
    + by intros c' [= <-].
  - (* ANewWriter *)
    simplify_eq. destruct Ha as (Hex' & Hrep & _).
    apply Hinv'; simpl; try done.
    + rewrite !alive_exited, Hex, Hex' in Htot. lia.
    + rewrite Hrep in Hbind. apply Permutation_app_inv_l in Hbind.
      by rewrite Hbind.
  - (* AWriteString *)
    simplify_eq. destruct Ha as (Hex' & Hrep & _).
    apply Hinv'; simpl; try done.
    + rewrite !alive_exited, Hex, Hex' in Htot. lia.
    + rewrite Hrep in Hbind. apply Permutation_app_inv_l in Hbind.
      by rewrite Hbind.
  - (* AWriterClose *)
    simplify_eq. destruct Ha as (Hex' & Hrep & _).
    apply Hinv'; simpl; try done.
    + rewrite !alive_exited, Hex, Hex' in Htot. lia.
    + rewrite Hrep in Hbind. apply Permutation_app_inv_l in Hbind.
      by rewrite Hbind.
  - (* ASend *)
    unfold apply_action in Hstep; simpl in Hstep.
    rewrite Hopen in Hstep. case_decide as Hroom; simpl in Hstep; simplify_eq.
    destruct Ha as (Hex' & _ & Hrep & Hrep').
    apply Hinv'; simpl; try done.
    + rewrite !alive_exited, Hex, Hex' in Htot. lia.
    + rewrite Hrep, Hrep' in Hbind. simpl in Hbind.
      rewrite Hbind, <- Hperm, app_assoc. by rewrite <- Permutation_cons_append.
  - (* ALog *)
    simplify_eq. destruct Ha as (Hex' & Hrep & _).
    apply Hinv'; simpl; try done.
    + rewrite !alive_exited, Hex, Hex' in Htot. lia.
    + rewrite Hrep in Hbind. apply Permutation_app_inv_l in Hbind.
      by rewrite Hbind.
  - (* AWgDone *)
    unfold apply_action in Hstep; simpl in Hstep.
    destruct (w - 1 <? 0) eqn:Hneg; [apply Z.ltb_lt in Hneg; lia |].
    simpl in Hstep. simplify_eq. destruct Ha as (Hex' & Hrep).
    apply Hinv'; simpl; try done.
    + rewrite !alive_exited, Hex, Hex' in Htot. lia.
    + rewrite Hrep in Hbind. apply Permutation_app_inv_l in Hbind.
      by rewrite Hbind.
Qed.

Lemma inv_step a d s s' : inv s → step W req a d s = Some s' → inv s'.
Proof.
  intros Hinv Hstep. unfold step in Hstep.
  destruct (crashed s); [done |].
  apply (inv_set_now (now s + Z.of_N d)) in Hinv.
  destruct a; [by eapply inv_handler_step | by eapply inv_task_step].
Qed.

Lemma inv_run sched : ∀ s s', inv s → run W req sched s = Some s' → inv s'.
Proof.
  induction sched as [|[a d] sched IH]; intros s s' Hinv Hrun; simpl in Hrun.
  - by simplify_eq.
  - destruct (step W req a d s) as [s1|] eqn:Hs; [simpl in Hrun | done].
    eapply IH; [| done]. by eapply inv_step.
Qed.

(** ** No task ever blocks, and the handler cannot deadlock *)

Lemma total_pos_exists f ts :
  (0 < total f ts)%nat → ∃ i t, ts !! i = Some t ∧ (0 < f t)%nat.
Proof.
  induction ts as [|t ts IH]; [rewrite total_nil; lia |].
  rewrite total_cons. intros H. destruct (decide (0 < f t)%nat).
  - by exists 0%nat, t.
  - destruct IH as (i & u & Hi & Hu); [lia |]. by exists (S i), u.
Qed.

Lemma task_step_enabled i nw po t :
  exited t = false → is_Some (task_step W i nw po t).
Proof. intros H. destruct t; simpl; repeat case_match; eauto; done. Qed.

(** A task that has not finished can take its next step at once, whatever
    the other tasks have done: in particular its send finds room. *)
Lemma task_enabled s i t :
  inv s → tasks s !! i = Some t → exited t = false →
  is_Some (task_sys_step W i s).
Proof.
  intros Hinv Hi Hex. unfold task_sys_step. rewrite Hi. simpl.
  destruct (task_step_enabled i (now s) (pool s) t Hex) as [[t' a] Hts].
  rewrite Hts. simpl.
  destruct Hinv as (Hpc & Hwg & Hcap & Hcl & Hperm & Hcr & Htok).
  destruct (task_step_facts i _ _ t t' a Hts (Htok i t Hi)) as (_ & _ & Ha).
  destruct a; simpl; eauto.
  - destruct (closed (errs s)); [eauto |].
    destruct Ha as (_ & Hs & _).
    pose proof (sending_room _ _ _ Hi Hs) as Hroom.
    rewrite <- Hperm, length_app in Hroom.
    rewrite decide_True by lia. simpl. eauto.
  - destruct (wg s - 1 <? 0); simpl; eauto.
Qed.

(** The program has stopped: the handler has returned, or the process has
    crashed. *)
Definition stopped (s : state) : Prop := pc s = HReturned ∨ crashed s ≠ None.

#[global] Instance stopped_dec s : Decision (stopped s).
Proof. unfold stopped. apply _. Defined.

Lemma progress s d :
  inv s → ¬ stopped s → ∃ a s', step W req a d s = Some s'.
Proof.
  intros Hinv Hns. unfold stopped in Hns.
  destruct (crashed s) as [c|] eqn:Hc; [exfalso; apply Hns; right; done |].
  assert (pc s ≠ HReturned) as Hpc by tauto.
  unfold step. rewrite Hc.
  apply (inv_set_now (now s + Z.of_N d)) in Hinv.
  assert (pc (set_now (now s + Z.of_N d) s) ≠ HReturned) as Hpc1 by done.
  revert Hinv Hpc1. generalize (set_now (now s + Z.of_N d) s). clear.
  intros s Hinv Hpc.
  destruct (handler_step W req s) as [s'|] eqn:Hh; [by exists Handler, s' |].
  destruct Hinv as (Hpci & Hwg & Hcap & Hcl & Hperm & Hcr & Htok).
  assert (0 < total alive (tasks s))%nat as Hpos.
  { unfold handler_step in Hh. unfold pc_inv in Hpci.
    destruct (pc s); repeat case_match; simplify_eq.
    - lia.
    - destruct Hpci as (_ & _ & Hclosed & _). congruence. }
  destruct (total_pos_exists _ _ Hpos) as (i & t & Hi & Ht).
  assert (exited t = false) as Hex
    by (rewrite alive_exited in Ht; destruct (exited t); [lia | done]).
  destruct (task_enabled s i t) as [s' Hs']; [done..|].
  by exists (Task i), s'.
Qed.

(** ** Every run is finite *)

Definition task_weight (t : task) : nat :=
  match t with
  | TKey => 11
  | TContent _ => 10
  | TNewWriter _ _ => 9
  | TWriteString _ _ => 8
  | TSendWriteErr _ _ => 7
  | TBestEffortClose _ _ => 5
  | TClose _ => 7
  | TSendCloseErr _ _ => 6
  | TLogSuccess _ => 6
  | TDone _ => 1
  | TExited _ => 0
  end.

(** What the handler itself has left to do; each spawn will add a task. *)
Definition spawn_cost (n : Z) : nat := (12 * Z.to_nat n)%nat.

Definition handler_weight (s : state) : nat :=
  let decoded :=
    match json_Decode W (ReqBody req) with
    | inr p => Number p
    | inl _ => 0
    end in
  match pc s with
  | HMethod => 12 + spawn_cost decoded
  | HDecode => 11 + spawn_cost decoded
  | HValidate => 10 + spawn_cost (Number (payload s))
  | HBucket => 9 + spawn_cost (Number (payload s))
  | HStartTime => 8 + spawn_cost (Number (payload s))
  | HMakeChan => 7 + spawn_cost (Number (payload s))
  | HLoop i => 6 + spawn_cost (Number (payload s) - i)
  | HWait => 5
  | HCloseChan => 4
  | HSince => 3
  | HRange => 2
  | HRespond => 1
  | HReturned => 0
  end.

Definition measure (s : state) : nat :=
  match crashed s with
  | Some _ => 0
  | None =>
      handler_weight s + total task_weight (tasks s) + length (buf (errs s))
  end.

Lemma measure_set_now v s : measure (set_now v s) = measure s.
Proof. by destruct s. Qed.

Lemma spawn_cost_step n i :
  i < n → spawn_cost (n - i) = (12 + spawn_cost (n - (i + 1)))%nat.
Proof. intros H. unfold spawn_cost. lia. Qed.

Lemma handler_step_measure s s' :
  inv s → crashed s = None → handler_step W req s = Some s' →
  (measure s' < measure s)%nat.
Proof.
  intros Hinv Hc Hstep. destruct s as [pc0 pl st tt em ch w ts nw po rs tr cr].
  simpl in Hc. subst cr.
  destruct Hinv as (Hpc & _). inv_hyp Hpc.
  unfold handler_step in Hstep; simpl in Hstep.
  destruct pc0; repeat case_match; simplify_eq; destruct_and?; simplify_eq;
    unfold measure, handler_weight;
    cbn [pc payload tasks errs buf crashed http_Error set_pc set_response
         emit set_payload set_startTime set_errs set_wg set_tasks
         set_timeTaken set_errorMessages length nil_chan];
    rewrite ?Z.sub_0_r, ?total_nil; try lia.
  - match goal with H : json_Decode _ _ = _ |- _ => rewrite H end. lia.
  - rewrite total_app, total_cons, total_nil.
    unfold int_add. rewrite wrap64_small by (unfold minInt, maxInt in *; lia).
    rewrite (spawn_cost_step (Number pl) (Z.of_nat (length ts))) by lia.
    simpl task_weight. lia.
  - match goal with H : buf _ = _ |- _ => rewrite H end. simpl. lia.
Qed.

Lemma task_step_weight i nw po t t' a :
  task_step W i nw po t = Some (t', a) →
  match a with
  | ACrash _ => True
  | ASend _ => (task_weight t' + 2 ≤ task_weight t)%nat
  | _ => (task_weight t' < task_weight t)%nat
  end.
Proof.
  intros H. destruct t; simpl in H; repeat case_match; simplify_eq; simpl; lia.
Qed.

Lemma task_sys_step_measure i s s' :
  inv s → crashed s = None → task_sys_step W i s = Some s' →
  (measure s' < measure s)%nat.
Proof.
  intros Hinv Hc Hstep. destruct s as [pc0 pl st tt em ch w ts nw po rs tr cr].
  simpl in Hc. subst cr.
  unfold task_sys_step in Hstep; simpl in Hstep.
  destruct (ts !! i) as [t|] eqn:Hi; [simpl in Hstep | done].
  destruct (task_step W i nw po t) as [[t' a]|] eqn:Hts; [simpl in Hstep | done].
  pose proof (task_step_weight _ _ _ _ _ _ Hts) as Hw.
  pose proof (total_insert task_weight ts i t t' Hi) as Htot.
  destruct Hinv as (_ & _ & _ & _ & _ & _ & Htok).
  destruct (task_step_facts i nw po t t' a Hts (Htok i t Hi)) as (Hex & _ & _).
  assert (0 < task_weight t)%nat by (destruct t; simpl; done || lia).
  assert (0 < total task_weight ts)%nat.
  { destruct (total task_weight ts) eqn:H0; [| lia].
    pose proof (total_zero _ _ _ _ H0 Hi). lia. }
  unfold apply_action in Hstep.
  destruct a; simpl in Hstep; repeat case_match; simpl in Hstep; simplify_eq;
    unfold measure, handler_weight;
    cbn [pc payload tasks errs buf crashed emit set_pool set_crashed set_errs
         set_wg set_tasks];
    rewrite ?length_app; cbn [length]; try lia.

Qed.

Lemma step_measure a d s s' :
  inv s → step W req a d s = Some s' → (measure s' < measure s)%nat.
Proof.
  intros Hinv Hstep. unfold step in Hstep.
  destruct (crashed s) eqn:Hc; [done |].
  rewrite <- (measure_set_now (now s + Z.of_N d) s).
  apply (inv_set_now (now s + Z.of_N d)) in Hinv.
  destruct a; [eapply handler_step_measure | eapply task_sys_step_measure];
    try done; by destruct s.
Qed.

Lemma run_bounded sched : ∀ s s',
  inv s → run W req sched s = Some s' →
  (length sched + measure s' ≤ measure s)%nat.
Proof.
  induction sched as [|[a d] sched IH]; intros s s' Hinv Hrun; simpl in Hrun.
  - simplify_eq. simpl. lia.
  - destruct (step W req a d s) as [s1|] eqn:Hs; [simpl in Hrun | done].
    pose proof (step_measure _ _ _ _ Hinv Hs).
    pose proof (IH s1 s' (inv_step _ _ _ _ Hinv Hs) Hrun). simpl. lia.
Qed.

(** Every state the program gets into can run on until it has stopped. *)
Lemma run_to_stop s :
  inv s → ∃ sched s', run W req sched s = Some s' ∧ stopped s'.
Proof.
  remember (measure s) as n eqn:Hn. revert s Hn.
  induction n as [n IH] using lt_wf_ind. intros s -> Hinv.
  destruct (decide (stopped s)) as [Hs|Hs].
  { by exists [], s. }
  destruct (progress s 0 Hinv Hs) as (a & s1 & Hs1).
  destruct (IH (measure s1) (step_measure _ _ _ _ Hinv Hs1) s1 eq_refl
              (inv_step _ _ _ _ Hinv Hs1)) as (sched & s' & Hrun & Hstop).
  exists ((a, 0%N) :: sched), s'. split; [| done].
  simpl. by rewrite Hs1.
Qed.

(** ** The shape of the trace *)

(** Work of the fan-out: the spawning of a task and everything a task does. *)
Definition task_work (x : Z * event) : bool :=
  match x.2 with
  | EvTask _ _ | EvHandler (HeGo _) => true
  | _ => false
  end.

Definition no_work (tr : list (Z * event)) : Prop :=
  Forall (λ x, task_work x = false) tr.

Definition stamps_in (lo hi : Z) (tr : list (Z * event)) : Prop :=
  Forall (λ x, lo ≤ x.1 ≤ hi) tr.

(** The trace once the interval has been measured: what came before the
    reading of [startTime], the interval, and what came after
    [time.Since]; the messages drained so far were received after it. *)
Definition measured (s : state) : Prop :=
  ∃ post mid pre,
    trace s = post ++ (startTime s + timeTaken s, EvHandler HeSince)
                :: mid ++ (startTime s, EvHandler HeNow) :: pre
    ∧ no_work pre ∧ no_work post
    ∧ stamps_in (startTime s) (startTime s + timeTaken s) mid
    ∧ ∀ m, m ∈ errorMessages s → ∃ τ, (τ, EvHandler (HeRecv m)) ∈ post.

(** The trace while the interval is running. *)
Definition measuring (s : state) : Prop :=
  ∃ mid pre,
    trace s = mid ++ (startTime s, EvHandler HeNow) :: pre
    ∧ no_work pre ∧ stamps_in (startTime s) (now s) mid
    ∧ startTime s ≤ now s.

Definition trace_inv (s : state) : Prop :=
  match pc s with
  | HMethod | HDecode | HValidate => trace s = []
  | HBucket | HStartTime => no_work (trace s)
  | HMakeChan | HLoop _ | HWait | HCloseChan | HSince => measuring s
  | HRange | HRespond => measured s
  | HReturned =>
      match accepted with
      | None =>
          ∃ τ msg,
            trace s = [(τ, EvHandler (HeError reject_status msg))]
            ∧ response s = Some (mkResponse reject_status (TextBody msg))
      | Some _ => measured s
      end
  end.

(** The messages sent on the channel, by anyone and by task [i], as the
    trace has them. *)
Definition sent_msgs (tr : list (Z * event)) : list string :=
  omap (λ x, match x.2 with EvTask _ (ASend m) => Some m | _ => None end) tr.

Definition sent_by (i : nat) (tr : list (Z * event)) : list string :=
  omap (λ x, match x.2 with
             | EvTask j (ASend m) => if decide (i = j) then Some m else None
             | _ => None
             end) tr.

(** What the tasks have done is in the trace, and nothing else is. *)
Definition logged (s : state) : Prop :=
  (∀ i t, tasks s !! i = Some t → exited t = true →
          ∃ τ, (τ, EvTask i AWgDone) ∈ trace s)
  ∧ (∀ i, sent_by i (trace s) = from_option reported [] (tasks s !! i))
  ∧ sent_msgs (trace s) ≡ₚ tasks s ≫= reported.

Lemma stamps_in_mono lo hi hi' tr :
  hi ≤ hi' → stamps_in lo hi tr → stamps_in lo hi' tr.
Proof.
  intros Hle H. eapply Forall_impl; [exact H |]. intros x. simpl. lia.
Qed.

Lemma trace_inv_tick d s :
  trace_inv s → trace_inv (set_now (now s + Z.of_N d) s).
Proof.
  destruct s as [pc0 pl st tt em ch w ts nw po rs tr cr].
  unfold trace_inv, measuring, measured; simpl.
  destruct pc0; try done;
    intros (mid & pre & ? & ? & ? & ?); exists mid, pre;
    (split_and!; [done | done | | lia]);
    (eapply stamps_in_mono; [| done]); lia.
Qed.

Lemma logged_tick v s : logged s → logged (set_now v s).
Proof. by destruct s. Qed.

Lemma task_step_pc s i t :
  inv s → tasks s !! i = Some t → exited t = false →
  pc s = HWait ∨ ∃ j, pc s = HLoop j.
Proof.
  intros (Hpc & _) Hi Hex.
  assert (alive t = 1%nat) as Halive by (by rewrite alive_exited, Hex).
  assert (total alive (tasks s) ≠ 0)%nat as Hpos.
  { intros H0. pose proof (total_zero _ _ _ _ H0 Hi). lia. }
  assert (tasks s ≠ []) as Hne by (intros E; by rewrite E in Hi).
  unfold pc_inv, untouched, all_exited in Hpc.
  destruct (pc s); eauto; destruct_and?; try done.
  destruct accepted; destruct_and?; done.
Qed.

Lemma trace_inv_handler_step s s' :
  inv s → trace_inv s → handler_step W req s = Some s' → trace_inv s'.
Proof.
  intros Hinv Htr Hstep. destruct s as [pc0 pl st tt em ch w ts nw po rs tr cr].
  destruct Hinv as (Hpc & _). inv_hyp Hpc.
  unfold trace_inv, measuring, measured in Htr; simpl in Htr.
  unfold handler_step in Hstep; simpl in Hstep.
  destruct pc0.
  - (* HMethod *)
    case_decide as Hm; simplify_eq; [done |].
    destruct (accepted_None_method Hm) as [Ha Hr].
    unfold trace_inv; simpl. rewrite Ha, Hr. eauto 6.
  - (* HDecode *)
    destruct Hpc as (_ & _ & Hm).
    destruct (json_Decode W (ReqBody req)) as [err|p] eqn:Hd; simplify_eq;
      [| done].
    destruct (accepted_None_decode err Hm Hd) as [Ha Hr].
    unfold trace_inv; simpl. rewrite Ha, Hr. eauto 6.
  - (* HValidate *)
    destruct Hpc as (_ & _ & Hm & Hd).
    destruct (Number pl <=? 0) eqn:Hn; simplify_eq.
    + apply Z.leb_le in Hn.
      destruct (accepted_None_number pl Hm Hd Hn) as [Ha Hr].
      unfold trace_inv; simpl. rewrite Ha, Hr. eauto 6.
    + unfold trace_inv, no_work; simpl. constructor.
  - (* HBucket *)
    simplify_eq. unfold trace_inv, no_work; simpl. by constructor.
  - (* HStartTime *)
    simplify_eq. unfold trace_inv, measuring; simpl.
    exists [], tr. split_and!; [done.. | constructor | lia].
  - (* HMakeChan *)
    simplify_eq. unfold trace_inv, measuring; simpl.
    destruct Htr as (mid & pre & -> & Hpre & Hmid & Hle).
    exists ((nw, EvHandler (HeMakeChan (Number pl))) :: mid), pre.
    split_and!; [done.. | | done]. constructor; [simpl; lia | done].
  - (* HLoop *)
    destruct Htr as (mid & pre & -> & Hpre & Hmid & Hle).
    destruct (i <? Number pl); simplify_eq; unfold trace_inv, measuring; simpl.
    + exists ((nw, EvHandler (HeGo i)) :: mid), pre.
      split_and!; [done.. | | done]. constructor; [simpl; lia | done].
    + by exists mid, pre.
  - (* HWait *)
    destruct Htr as (mid & pre & -> & Hpre & Hmid & Hle).
    case_decide; simplify_eq. unfold trace_inv, measuring; simpl.
    exists ((nw, EvHandler HeWaitReturns) :: mid), pre.
    split_and!; [done.. | | done]. constructor; [simpl; lia | done].
  - (* HCloseChan *)
    destruct Htr as (mid & pre & -> & Hpre & Hmid & Hle).
    simplify_eq. unfold trace_inv, measuring; simpl.
    exists ((nw, EvHandler HeCloseChan) :: mid), pre.
    split_and!; [done.. | | done]. constructor; [simpl; lia | done].
  - (* HSince *)
    destruct Htr as (mid & pre & -> & Hpre & Hmid & Hle).
    destruct Hpc as (_ & _ & _ & -> & _).
    simplify_eq. unfold trace_inv, measured; simpl.
    exists [], mid, pre. replace (st + (nw - st)) with nw by lia.
    split_and!; [done.. | constructor | done |].
    intros m Hm. by apply elem_of_nil in Hm.
  - (* HRange *)
    destruct Htr as (post & mid & pre & -> & Hpre & Hpost & Hmid & Hrecv).
    destruct (buf ch) as [|err rest]; [case_match |]; simplify_eq;
      unfold trace_inv, measured; simpl.
    + by exists post, mid, pre.
    + exists ((nw, EvHandler (HeRecv err)) :: post), mid, pre.
      split_and!; [done.. | by constructor | done |].
      intros m [Hm | ->%list_elem_of_singleton]%elem_of_app.
      * destruct (Hrecv m Hm) as [τ Hτ]. exists τ. by right.
      * exists nw. by left.
  - (* HRespond *)
    destruct Htr as (post & mid & pre & -> & Hpre & Hpost & Hmid & Hrecv).
    destruct Hpc as ((_ & Ha) & _).
    simplify_eq. unfold trace_inv, measured; simpl. rewrite Ha.
    exists ((nw, EvHandler
               (HeRespond (if 0 <? Z.of_nat (length em)
                           then StatusInternalServerError else StatusOK)))
              :: post), mid, pre.
    split_and!; [done.. | by constructor | done |].
    intros m Hm. destruct (Hrecv m Hm) as [τ Hτ]. exists τ. by right.
  - done.
Qed.

Lemma trace_inv_task_step i s s' :
  inv s → trace_inv s → task_sys_step W i s = Some s' → trace_inv s'.
Proof.
  intros Hinv Htr Hstep.
  unfold task_sys_step in Hstep.
  destruct (tasks s !! i) as [t|] eqn:Hi; [simpl in Hstep | done].
  destruct (task_step W i (now s) (pool s) t) as [[t' a]|] eqn:Hts;
    [simpl in Hstep | done].
  destruct (apply_action a s) as [s1|] eqn:Hact; [simpl in Hstep | done].
  simplify_eq.
  assert (exited t = false) as Hex by (by destruct t).
  assert (pc s1 = pc s ∧ trace s1 = trace s ∧ startTime s1 = startTime s
          ∧ now s1 = now s) as (Ep & Et & Es & En).
  { unfold apply_action in Hact. destruct s.
    destruct a; repeat case_match; by simplify_eq. }
  destruct (task_step_pc s i t Hinv Hi Hex) as [Hpc|[j Hpc]];
    unfold trace_inv, measuring in *; simpl; rewrite Ep, Hpc in *;
    destruct Htr as (mid & pre & Htr & Hpre & Hmid & Hle);
    exists ((now s1, EvTask i a) :: mid), pre;
    rewrite Et, Htr, Es, En;
    (split_and!; [done.. | | done]); (constructor; [simpl; lia | done]).
Qed.

Lemma trace_inv_step a d s s' :
  inv s → trace_inv s → step W req a d s = Some s' → trace_inv s'.
Proof.
  intros Hinv Htr Hstep. unfold step in Hstep.
  destruct (crashed s); [done |].
  apply (inv_set_now (now s + Z.of_N d)) in Hinv.
  apply (trace_inv_tick d) in Htr.
  destruct a; [by eapply trace_inv_handler_step | by eapply trace_inv_task_step].
Qed.

Lemma handler_step_frame s s' :
  handler_step W req s = Some s' →
  (trace s' = trace s ∨ ∃ τ e, trace s' = (τ, EvHandler e) :: trace s)
  ∧ (tasks s' = tasks s ∨ tasks s' = tasks s ++ [TKey]).
Proof.
  intros Hstep. destruct s as [pc0 pl st tt em ch w ts nw po rs tr cr].
  unfold handler_step in Hstep; simpl in Hstep.
  destruct pc0; repeat case_match; simplify_eq; simpl; eauto 6.
Qed.

Lemma logged_handler_step s s' :
  logged s → handler_step W req s = Some s' → logged s'.
Proof.
  intros (Hdone & Hby & Hall) Hstep.
  destruct (handler_step_frame s s' Hstep) as [Htr Hts].
  assert (sent_by = sent_by ∧ ∀ x, x ∈ trace s → x ∈ trace s') as [_ Hsub].
  { split; [done |]. intros x Hx.
    destruct Htr as [->|(τ & e & ->)]; [done | by right]. }
  assert (sent_msgs (trace s') = sent_msgs (trace s)
          ∧ ∀ i, sent_by i (trace s') = sent_by i (trace s)) as [Em Eb].
  { destruct Htr as [->|(τ & e & ->)]; done. }
  split_and!.
  - intros i t Hi Hex.
    assert (tasks s !! i = Some t) as Hi'.
    { destruct Hts as [E|E]; rewrite E in Hi; [done |].
      apply lookup_app_Some in Hi as [Hi | [_ Hi]]; [done |].
      apply list_lookup_singleton_Some in Hi as [_ <-]. done. }
    destruct (Hdone i t Hi' Hex) as [τ Hτ]. exists τ. by apply Hsub.
  - intros i. rewrite Eb, Hby.
    destruct Hts as [->| ->]; [done |].
    destruct (tasks s !! i) as [t|] eqn:Hi.
    + by rewrite (lookup_app_l_Some _ _ _ _ Hi).
    + apply lookup_ge_None in Hi.
      destruct (decide (i = length (tasks s))) as [->|Hne].
      * by rewrite lookup_app_r, Nat.sub_diag by lia.
      * rewrite (proj2 (lookup_ge_None _ _)); [done |].
        rewrite length_app. simpl. lia.
  - rewrite Em, Hall. destruct Hts as [->| ->]; [done |].
    by rewrite bind_app, app_nil_r.
Qed.

Lemma logged_task_step i s s' :
  inv s → logged s → task_sys_step W i s = Some s' → logged s'.
Proof.
  intros Hinv (Hdone & Hby & Hall) Hstep.
  unfold task_sys_step in Hstep.
  destruct (tasks s !! i) as [t|] eqn:Hi; [simpl in Hstep | done].
  destruct (task_step W i (now s) (pool s) t) as [[t' a]|] eqn:Hts;
    [simpl in Hstep | done].
  destruct (apply_action a s) as [s1|] eqn:Hact; [simpl in Hstep | done].
  simplify_eq.
  assert (trace s1 = trace s ∧ tasks s1 = tasks s) as (Et & _).
  { unfold apply_action in Hact. destruct s.
    destruct a; repeat case_match; by simplify_eq. }
  destruct Hinv as (_ & _ & _ & _ & _ & _ & Htok).
  destruct (task_step_facts i _ _ t t' a Hts (Htok i t Hi)) as (Hex & _ & Ha).
  pose proof (bind_insert_perm reported (tasks s) i t t' Hi) as Hbind.
  pose proof (lookup_lt_Some _ _ _ Hi) as Hlt.
  specialize (Hby i) as Hbyi. rewrite Hi in Hbyi. simpl in Hbyi.
  unfold logged. simpl. rewrite Et. split_and!.
  - intros j u Hj Hex'. destruct (decide (i = j)) as [<-|Hne].
    + rewrite list_lookup_insert_eq in Hj by done. simplify_eq.
      exists (now s1). destruct a; destruct_and?; try congruence. by left.
    + rewrite list_lookup_insert_ne in Hj by done.
      destruct (Hdone j u Hj Hex') as [τ Hτ]. exists τ. by right.
  - intros j. destruct (decide (i = j)) as [<-|Hne].
    + rewrite list_lookup_insert_eq by done. simpl.
      destruct a; destruct_and?; simpl; rewrite ?decide_True by done;
        simpl; congruence.
    + rewrite list_lookup_insert_ne by done. rewrite <- Hby.
      destruct a; simpl; rewrite ?decide_False by done; done.
  - destruct a; destruct_and?; simpl;
      try (match goal with H : reported t' = reported t |- _ =>
             rewrite H in Hbind end;
           apply Permutation_app_inv_l in Hbind; by rewrite Hbind).
    + subst t'. by rewrite list_insert_id.
    + match goal with H1 : reported t = [], H2 : reported t' = _ |- _ =>
        rewrite H1, H2 in Hbind end.
      simpl in Hbind. by rewrite Hbind, Hall.
Qed.

(** ** All invariants together *)

Definition good (s : state) : Prop := inv s ∧ trace_inv s ∧ logged s.

Lemma good_init : good (init now0 pool0).
Proof.
  split_and!; [apply inv_init | done |].
  split_and!; done.
Qed.

Lemma good_step a d s s' : good s → step W req a d s = Some s' → good s'.
Proof.
  intros (Hinv & Htr & Hlog) Hstep.
  split_and!; [by eapply inv_step | by eapply trace_inv_step |].
  unfold step in Hstep. destruct (crashed s); [done |].
  apply (inv_set_now (now s + Z.of_N d)) in Hinv.
  apply (logged_tick (now s + Z.of_N d)) in Hlog.
  destruct a; [by eapply logged_handler_step | by eapply logged_task_step].
Qed.

Lemma good_run sched : ∀ s s', good s → run W req sched s = Some s' → good s'.
Proof.
  induction sched as [|[a d] sched IH]; intros s s' Hg Hrun; simpl in Hrun.
  - by simplify_eq.
  - destruct (step W req a d s) as [s1|] eqn:Hs; [simpl in Hrun | done].
    eapply IH; [| done]. by eapply good_step.
Qed.

Lemma run_reachable sched : ∀ s s',
  run W req sched s = Some s' → rtc (step_rel W req) s s'.
Proof.
  induction sched as [|[a d] sched IH]; intros s s' Hrun; simpl in Hrun.
  - by simplify_eq.
  - destruct (step W req a d s) as [s1|] eqn:Hs; [simpl in Hrun | done].
    eapply rtc_l; [by exists a, d | by apply IH].
Qed.

Lemma reachable_run s :
  reachable W req now0 pool0 s →
  ∃ sched, run W req sched (init now0 pool0) = Some s.
Proof.
  unfold reachable. intros H.
  eapply (rtc_ind_r (λ s, ∃ sched, run W req sched (init now0 pool0) = Some s));
    [| | exact H].
  - by exists [].
  - intros s1 s2 _ (a & d & Hs) (sched & Hrun).
    exists (sched ++ [(a, d)]). revert Hrun. generalize (init now0 pool0).
    induction sched as [|[a' d'] sched IHs]; intros s0 Hrun; simpl in *.
    + simplify_eq. by rewrite Hs.
    + destruct (step W req a' d' s0); [simpl in * | done]. by apply IHs.
Qed.

(** ** Entropy: with enough of it nothing crashes *)

(** Random bytes a task has drawn so far: 16 for the key, 1024 for the
    content. *)
Definition drawn (t : task) : nat :=
  match t with
  | TKey => 0
  | TContent _ => 16
  | _ => 1040
  end.

(** The pool holds enough for every task of an accepted request. *)
Definition ample : Prop :=
  ∀ p, accepted = Some p → (1040 * Z.to_nat (Number p) ≤ length pool0)%nat.

Definition fed (s : state) : Prop :=
  (length (pool s) + total drawn (tasks s))%nat = length pool0
  ∧ crashed s = None.

Lemma fed_init : fed (init now0 pool0).
Proof. split; [simpl; rewrite total_nil; lia | done]. Qed.

Lemma total_room f k ts i t :
  (∀ u, f u ≤ k)%nat → ts !! i = Some t →
  (total f ts + k ≤ k * length ts + f t)%nat.
Proof.
  intros Hk Hi. rewrite <- (take_drop_middle ts i t Hi).
  rewrite total_app, total_cons, length_app. simpl.
  pose proof (total_le f (λ _, k) (take i ts) Hk) as H1.
  pose proof (total_le f (λ _, k) (drop (S i) ts) Hk) as H2.
  unfold total in H1 at 2. unfold total in H2 at 2.
  rewrite sum_list_fmap_const in H1, H2. lia.
Qed.

Lemma task_step_drawn i nw po t t' a :
  task_step W i nw po t = Some (t', a) →
  match a with
  | AGenerate n po' =>
      (length po' + n = length po ∧ drawn t' = drawn t + n)%nat
  | ACrash _ => (length po < 1040 - drawn t)%nat
  | _ => drawn t' = drawn t
  end.
Proof.
  intros Hstep. destruct t; simpl in Hstep;
    try (repeat case_match; by simplify_eq).
  - destruct (generateObjectKey_cases nw (Local W) po) as [[Hg ?]|[? Hg]];
      rewrite Hg in Hstep; simplify_eq; simpl; [lia |].
    rewrite length_drop. lia.
  - destruct (generateRandomString_cases 1024 po) as [[Hg ?]|[? Hg]];
      [lia | ..]; rewrite Hg in Hstep; simplify_eq; simpl; [lia |].
    rewrite length_drop. lia.
Qed.

Lemma fed_handler_step s s' :
  fed s → handler_step W req s = Some s' → fed s'.
Proof.
  intros [Hp Hc] Hstep. destruct s as [pc0 pl st tt em ch w ts nw po rs tr cr].
  unfold handler_step in Hstep. cbn [pc payload tasks pool crashed] in *.
  destruct pc0; repeat case_match; simplify_eq; split;
    cbn [pc payload tasks pool crashed http_Error set_pc set_response
         emit set_payload set_startTime set_errs set_wg set_tasks
         set_timeTaken set_errorMessages]; try done.
  rewrite total_app, total_cons, total_nil. cbn [drawn]. lia.
Qed.

Lemma fed_task_step i s s' :
  ample → inv s → fed s → task_sys_step W i s = Some s' → fed s'.
Proof.
  intros Hample Hinv [Hp Hc] Hstep.
  unfold task_sys_step in Hstep.
  destruct (tasks s !! i) as [t|] eqn:Hi; [simpl in Hstep | done].
  destruct (task_step W i (now s) (pool s) t) as [[t' a]|] eqn:Hts;
    [simpl in Hstep | done].
  destruct (apply_action a s) as [s1|] eqn:Hact; [simpl in Hstep | done].
  simplify_eq.
  assert (exited t = false) as Hex by (by destruct t).
  pose proof (task_step_drawn _ _ _ _ _ _ Hts) as Hd.
  pose proof (total_insert drawn (tasks s) i t t' Hi) as Htot.
  assert (1040 * length (tasks s) ≤ length pool0)%nat as Hlen.
  { pose proof Hinv as (Hpc & _ & Hcap & _).
    destruct (task_step_pc s i t Hinv Hi Hex) as [E|[j E]];
      unfold pc_inv in Hpc; rewrite E in Hpc;
      destruct Hpc as ((_ & Ha) & Hcm & _);
      specialize (Hample _ Ha); unfold chan_made in Hcm; lia. }
  assert (∀ u, drawn u ≤ 1040)%nat as Hk by (intros []; simpl; lia).
  pose proof (total_room drawn 1040 (tasks s) i t Hk Hi) as Hroom.
  destruct Hinv as (_ & Hwg & _ & Hcl & _).
  unfold apply_action in Hact.
  destruct s as [pc0 pl st tt em ch w ts nw po rs tr cr].
  unfold all_exited in Hcl.
  cbn [pc payload tasks pool crashed errs wg] in *.
  assert (0 < total alive ts)%nat as Hpos.
  { destruct (total alive ts) eqn:H0; [| lia].
    pose proof (total_zero _ _ _ _ H0 Hi) as Hz.
    rewrite alive_exited, Hex in Hz. lia. }
  destruct a; repeat case_match; simplify_eq; split;
    cbn [pc payload tasks pool crashed errs wg emit set_pool set_crashed
         set_errs set_wg set_tasks]; try done; try lia.
Qed.

Lemma fed_run sched : ∀ s s',
  ample → good s → fed s → run W req sched s = Some s' → fed s'.
Proof.
  induction sched as [|[a d] sched IH]; intros s s' Ha Hg Hf Hrun;
    simpl in Hrun.
  - by simplify_eq.
  - destruct (step W req a d s) as [s1|] eqn:Hs; [simpl in Hrun | done].
    eapply IH; [done | by eapply good_step | | done].
    unfold step in Hs. destruct (crashed s) eqn:Hc; [done |].
    destruct Hg as (Hinv & _).
    apply (inv_set_now (now s + Z.of_N d)) in Hinv.
    assert (fed (set_now (now s + Z.of_N d) s)) as Hf' by (by destruct s).
    destruct a; [by eapply fed_handler_step | by eapply fed_task_step].
Qed.

(** ** What a finished request looks like *)

Lemma response_returned s r : inv s → response s = Some r → pc s = HReturned.
Proof.
  intros (Hpc & _) Hr. unfold pc_inv in Hpc.
  destruct (pc s); destruct_and?; congruence.
Qed.

Lemma spawned_chan s :
  inv s → tasks s ≠ [] →
  cap (errs s) = Z.to_nat (Number (payload s)) ∧ accepted = Some (payload s).
Proof.
  intros (Hpc & _) Hne. unfold pc_inv, untouched, valid_payload, chan_made in Hpc.
  destruct (pc s); destruct_and?; try done.
  destruct accepted; destruct_and?; done.
Qed.

Lemma all_exited_lookup ts i t :
  total alive ts = 0%nat → ts !! i = Some t → ∃ sent, t = TExited sent.
Proof.
  intros H0 Hi. pose proof (total_zero _ _ _ _ H0 Hi) as Hz.
  destruct t; try discriminate Hz. eauto.
Qed.

Lemma count_filter (P : nat → bool) (l : list nat) :
  sum_list ((λ i, if P i then 1 else 0)%nat <$> l) = length (filter (λ i, P i) l).
Proof.
  induction l as [|x l IH]; [done |].
  rewrite fmap_cons, filter_cons. simpl. rewrite IH.
  case_decide as HP; destruct (P x); simpl in *; done.
Qed.

(** When all tasks have exited, the failures reported are one per task
    the backend failed. *)
Lemma failures_counted s :
  inv s → all_exited s →
  length (tasks s ≫= reported)
  = length (filter (λ i, fails i) (seq 0 (length (tasks s)))).
Proof.
  intros (_ & _ & _ & _ & _ & _ & Htok) Hex.
  rewrite length_bind, <- count_filter. apply total_indexed.
  intros i t Hi. destruct (all_exited_lookup _ _ _ Hex Hi) as [sent ->].
  specialize (Htok i _ Hi). simpl in Htok. unfold fails.
  destruct sent as [m|]; simpl in *.
  - destruct Htok as (key & [(err & -> & _) | (-> & err & -> & _)]); done.
  - by destruct Htok as [-> ->].
Qed.

(** The state in which an accepted request has been answered. *)
Lemma answered s p r :
  good s → accepted = Some p → response s = Some r →
  payload s = p ∧ Number p ≤ maxInt ∧ 0 < Number p
  ∧ r = final_response s
  ∧ Z.of_nat (length (tasks s)) = Number p
  ∧ all_exited s
  ∧ errorMessages s ≡ₚ sent_msgs (trace s)
  ∧ length (errorMessages s)
    = length (filter (λ i, fails i) (seq 0 (Z.to_nat (Number p))))
  ∧ measured s.
Proof.
  intros (Hinv & Htr & (_ & _ & Hall)) Ha Hr.
  pose proof (response_returned s r Hinv Hr) as Hpc.
  pose proof (failures_counted s Hinv) as Hcount.
  destruct Hinv as (Hpci & _ & _ & _ & Hperm & _).
  unfold pc_inv in Hpci. unfold trace_inv in Htr. rewrite Hpc, Ha in *.
  destruct Hpci as ((Hn & Hp) & _ & Hsp & Hex & Hbuf & Hresp).
  rewrite Hbuf, app_nil_r in Hperm. unfold all_spawned in Hsp.
  assert (payload s = p) as <- by congruence.
  split_and!; try done; try lia.
  - congruence.
  - by rewrite Hperm, Hall.
  - rewrite Hperm, Hcount by done. do 3 f_equal. lia.
Qed.

(** ** The claims about the coordinator and the handler *)

(** C1. For a request that reaches the coordinator (count > 0), the
    aggregate result satisfies objects_written + |errors| = count, where
    objects_written is count minus the number of collected failure
    messages (the machine subtraction does not wrap), whatever mixture of
    successes and failures the backend produces: the collected messages
    are exactly the messages sent, one for each task the backend failed. *)
Theorem C1_written_plus_errors sched s p code pay :
  accepted = Some p →
  run W req sched (init now0 pool0) = Some s →
  response s = Some (mkResponse code (JsonBody pay)) →
  0 < Number p
  ∧ ObjectsWritten pay + Z.of_nat (length (Errors pay)) = Number p
  ∧ ObjectsWritten pay = Number p - Z.of_nat (length (Errors pay))
  ∧ 0 ≤ ObjectsWritten pay
  ∧ Errors pay ≡ₚ sent_msgs (trace s)
  ∧ length (Errors pay)
    = length (filter (λ i, fails i) (seq 0 (Z.to_nat (Number p)))).
Proof.
  intros Ha Hrun Hr.
  pose proof (good_run sched _ _ good_init Hrun) as Hg.
  destruct (answered s p _ Hg Ha Hr)
    as (<- & Hmax & Hpos & Hfin & Hlen & Hex & Hperm & Hcount & _).
  unfold final_response in Hfin. simplify_eq. simpl.
  assert (length (errorMessages s) ≤ length (tasks s))%nat as Hle.
  { rewrite Hperm. destruct Hg as (Hinv & _ & (_ & _ & Hall)).
    rewrite Hall, length_bind. apply total_le_length.
    intros t. pose proof (reported_or_sending t). lia. }
  unfold int_sub. rewrite wrap64_small by (unfold minInt, maxInt in *; lia).
  split_and!; try done; lia.
Qed.

Lemma length_sent_by s i : logged s → (length (sent_by i (trace s)) ≤ 1)%nat.
Proof.
  intros (_ & Hby & _). rewrite Hby.
  destruct (tasks s !! i) as [t|]; simpl; [| lia].
  pose proof (reported_or_sending t). lia.
Qed.

(** The send of a task is delivered at once: there is room in the buffer
    and the channel is open. *)
Lemma send_delivers s i t d :
  inv s → crashed s = None → tasks s !! i = Some t → sending t = true →
  ∃ s' m, step W req (Task i) d s = Some s'
          ∧ buf (errs s') = buf (errs s) ++ [m]
          ∧ sent_msgs (trace s') = m :: sent_msgs (trace s)
          ∧ crashed s' = None.
Proof.
  intros Hinv Hc Hi Hs. unfold step. rewrite Hc.
  apply (inv_set_now (now s + Z.of_N d)) in Hinv.
  assert (tasks (set_now (now s + Z.of_N d) s) !! i = Some t) as Hi'
    by (by destruct s).
  assert (∀ s1, buf (errs s1) = buf (errs (set_now (now s + Z.of_N d) s)) →
                buf (errs s1) = buf (errs s)) as Hb by (by destruct s).
  assert (sent_msgs (trace (set_now (now s + Z.of_N d) s))
          = sent_msgs (trace s)) as Ht by (by destruct s).
  assert (crashed (set_now (now s + Z.of_N d) s) = None) as Hc'
    by (by destruct s).
  revert Hinv Hi' Hb Ht Hc'. generalize (set_now (now s + Z.of_N d) s).
  intros s1 Hinv Hi' Hb Ht Hc'.
  destruct Hinv as (Hpc & Hwg & Hcap & Hcl & Hperm & Hcr & Htok).
  pose proof (sending_room _ _ _ Hi' Hs) as Hroom.
  rewrite <- Hperm, length_app in Hroom.
  assert (closed (errs s1) = false) as Hopen.
  { destruct (closed (errs s1)); [| done]. specialize (Hcl eq_refl).
    pose proof (total_zero _ _ _ _ Hcl Hi') as Hz. by destruct t. }
  unfold task_sys_step. rewrite Hi'. simpl.
  destruct t; try discriminate Hs; simpl; unfold apply_action;
    rewrite Hopen, decide_True by lia; simpl;
    eexists _, _; (split; [done |]); simpl;
    rewrite <- (Hb s1 eq_refl), Ht; done.
Qed.

(** C2. The error channel is made with capacity equal to the requested
    count and never holds more tasks than that; each task sends at most
    one message; every message sent is in the channel or already
    collected, exactly once; no unfinished task is ever blocked, and a task
    at its send statement delivers its message at once (the buffer has
    room and the channel is open), also when every task fails; unless the
    program has stopped some goroutine can step, no run is longer than a
    bound fixed by the request, and every run can be completed. *)
Theorem C2_collection_never_blocks sched s :
  run W req sched (init now0 pool0) = Some s →
  (tasks s ≠ [] →
   cap (errs s) = Z.to_nat (Number (payload s))
   ∧ accepted = Some (payload s))
  ∧ (length (tasks s) ≤ cap (errs s))%nat
  ∧ (∀ i, length (sent_by i (trace s)) ≤ 1)%nat
  ∧ errorMessages s ++ buf (errs s) ≡ₚ sent_msgs (trace s)
  ∧ (∀ i t d, crashed s = None → tasks s !! i = Some t → exited t = false →
              is_Some (step W req (Task i) d s))
  ∧ (∀ i t d, crashed s = None → tasks s !! i = Some t → sending t = true →
              ∃ s' m, step W req (Task i) d s = Some s'
                      ∧ buf (errs s') = buf (errs s) ++ [m]
                      ∧ sent_msgs (trace s') = m :: sent_msgs (trace s)
                      ∧ crashed s' = None)
  ∧ (¬ stopped s → ∀ d, ∃ a s', step W req a d s = Some s')
  ∧ (length sched ≤ measure (init now0 pool0))%nat
  ∧ (∃ sched' s', run W req sched' s = Some s' ∧ stopped s')
  ∧ (∀ c, crashed s = Some c → c = EntropyFailure).
Proof.
  intros Hrun.
  pose proof (good_run sched _ _ good_init Hrun) as (Hinv & Htr & Hlog).
  pose proof (run_bounded sched _ _ inv_init Hrun) as Hbound.
  split_and!.
  - by apply spawned_chan.
  - by destruct Hinv as (_ & _ & ? & _).
  - intros i. by apply length_sent_by.
  - destruct Hinv as (_ & _ & _ & _ & Hperm & _).
    destruct Hlog as (_ & _ & Hall). by rewrite Hperm, Hall.
  - intros i t d Hc Hi Hex. unfold step. rewrite Hc.
    apply (task_enabled _ i t); [by apply inv_set_now | by destruct s | done].
  - intros i t d Hc Hi Hs. by apply (send_delivers s i t d).
  - intros Hns d. by apply progress.
  - lia.
  - by apply run_to_stop.
  - by destruct Hinv as (_ & _ & _ & _ & _ & ? & _).
Qed.

(** The status the specification prescribes, in its words: 405 when the
    method is not POST; 400 when the body does not decode or the count is
    not positive; otherwise 500 when a failure was collected, 200 when
    none was. *)
Definition expected_status (failures : list string) : Z :=
  if decide (Method req = MethodPost) then
    match json_Decode W (ReqBody req) with
    | inl _ => StatusBadRequest
    | inr p =>
        if Number p <=? 0 then StatusBadRequest
        else match failures with
             | [] => StatusOK
             | _ :: _ => StatusInternalServerError
             end
    end
  else StatusMethodNotAllowed.

Lemma rejected_status : accepted = None → ∀ l, expected_status l = reject_status.
Proof.
  unfold accepted, expected_status, reject_status. intros H l.
  repeat case_match; simplify_eq; done.
Qed.

(** With enough entropy every run can be completed to one that has
    answered. *)
Lemma run_to_response s :
  ample → good s → fed s →
  ∃ sched s', run W req sched s = Some s' ∧ is_Some (response s').
Proof.
  intros Ha Hg Hf. destruct (run_to_stop s) as (sched & s' & Hrun & Hstop);
    [by destruct Hg |].
  exists sched, s'. split; [done |].
  pose proof (fed_run sched _ _ Ha Hg Hf Hrun) as [_ Hc].
  pose proof (good_run sched _ _ Hg Hrun) as ((Hpc & _) & _).
  destruct Hstop as [Hret|Hcr]; [| done].
  unfold pc_inv in Hpc. rewrite Hret in Hpc.
  destruct accepted; destruct_and?; [eauto |].
  destruct H0 as [msg ->]. eauto.
Qed.

(** C3. The status of the response is 405 when the method is not POST, 400
    when the body fails to decode or the decoded count is not positive,
    otherwise 500 when at least one failure was collected and 200 when
    the collected list is empty; rejections carry a text body, answers the
    JSON summary with the collected failures.  Every run can be completed
    to one that has stopped, and with enough entropy to one that has
    answered. *)
Theorem C3_status sched s :
  run W req sched (init now0 pool0) = Some s →
  (∀ r, response s = Some r →
        StatusCode r = expected_status (errorMessages s)
        ∧ match accepted with
          | Some _ => ∃ pay, Body r = JsonBody pay ∧ Errors pay = errorMessages s
          | None => ∃ msg, Body r = TextBody msg
          end)
  ∧ (∃ sched' s', run W req sched' s = Some s' ∧ stopped s')
  ∧ (ample → ∃ sched' s', run W req sched' s = Some s' ∧ is_Some (response s')).
Proof.
  intros Hrun.
  pose proof (good_run sched _ _ good_init Hrun) as Hg.
  split_and!.
  - intros r Hr. destruct Hg as (Hinv & _).
    pose proof (response_returned s r Hinv Hr) as Hpc.
    destruct Hinv as (Hpci & _). unfold pc_inv in Hpci. rewrite Hpc in Hpci.
    destruct accepted as [p|] eqn:Ha.
    + destruct Hpci as ((Hn & Hp) & _ & _ & _ & _ & Hresp).
      rewrite Hr in Hresp. simplify_eq. unfold final_response. simpl.
      split; [| eauto].
      destruct (accepted_post _ Ha) as (Hm & Hd & Hpos).
      unfold expected_status. rewrite decide_True, Hd by done.
      rewrite (proj2 (Z.leb_gt _ _)) by congruence.
      by destruct (errorMessages s).
    + destruct Hpci as (_ & msg & Hresp). rewrite Hr in Hresp. simplify_eq.
      simpl. split; [| eauto]. by rewrite rejected_status.
  - apply run_to_stop. by destruct Hg.
  - intros Ha. apply run_to_response; [done..|].
    by apply (fed_run sched _ _ Ha good_init fed_init).
Qed.

Lemma elem_sent_msgs m tr :
  m ∈ sent_msgs tr → ∃ τ i, (τ, EvTask i (ASend m)) ∈ tr.
Proof.
  unfold sent_msgs. intros ([τ e] & Hin & He)%list_elem_of_omap.
  simpl in He. destruct e as [|i []]; simplify_eq. eauto.
Qed.

Lemma work_in_mid x a b post mid pre :
  no_work pre → no_work post → task_work a = false → task_work b = false →
  task_work x = true → x ∈ post ++ a :: mid ++ b :: pre → x ∈ mid.
Proof.
  intros Hpre Hpost Ha Hb Hx Hin.
  unfold no_work in *. rewrite Forall_forall in Hpre, Hpost.
  rewrite elem_of_app, elem_of_cons, elem_of_app, elem_of_cons in Hin.
  destruct Hin as [Hin|[->|[Hin|[->|Hin]]]]; try done; try congruence.
  - specialize (Hpost _ Hin). congruence.
  - specialize (Hpre _ Hin). congruence.
Qed.

(** C5. The reported elapsed time is the clock difference between the
    reading of [startTime], taken before any task is spawned, and
    [time.Since], taken after [wg.Wait()] has returned: everything the
    tasks do, in particular every task's completion and every send of a
    failure onto the channel, lies in that interval, and no task does
    anything after it.  (The handler moves the failures from the channel
    into [errorMessages] after the interval.) *)
Theorem C5_elapsed_interval sched s code pay :
  run W req sched (init now0 pool0) = Some s →
  response s = Some (mkResponse code (JsonBody pay)) →
  ∃ t0 t1 post mid pre,
    trace s = post ++ (t1, EvHandler HeSince) :: mid
                ++ (t0, EvHandler HeNow) :: pre
    ∧ TimeTaken pay = t1 - t0
    ∧ no_work pre ∧ no_work post
    ∧ stamps_in t0 t1 mid
    ∧ Z.of_nat (length (tasks s)) = Number (payload s)
    ∧ (∀ i, (i < length (tasks s))%nat → ∃ τ, (τ, EvTask i AWgDone) ∈ mid)
    ∧ (∀ m, m ∈ Errors pay →
            (∃ τ i, (τ, EvTask i (ASend m)) ∈ mid)
            ∧ ∃ τ, (τ, EvHandler (HeRecv m)) ∈ post).
Proof.
  intros Hrun Hr.
  pose proof (good_run sched _ _ good_init Hrun) as Hg.
  assert (∃ p, accepted = Some p) as [p Ha].
  { destruct Hg as (Hinv & _).
    pose proof (response_returned s _ Hinv Hr) as Hpc.
    destruct Hinv as (Hpci & _). unfold pc_inv in Hpci. rewrite Hpc in Hpci.
    destruct accepted; [eauto |].
    destruct Hpci as (_ & msg & Hresp). congruence. }
  destruct (answered s p _ Hg Ha Hr)
    as (Hp & _ & _ & Hfin & Hlen & Hex & Hperm & _ & Hmeas).
  destruct Hmeas as (post & mid & pre & Htr & Hpre & Hpost & Hmid & Hrecv).
  unfold final_response in Hfin. simplify_eq. simpl.
  exists (startTime s), (startTime s + timeTaken s), post, mid, pre.
  destruct Hg as (_ & _ & (Hdone & _ & _)).
  split_and!; try done; try lia.
  - intros i Hi. destruct (lookup_lt_is_Some_2 _ _ Hi) as [t Ht].
    destruct (all_exited_lookup _ _ _ Hex Ht) as [sent ->].
    destruct (Hdone i _ Ht eq_refl) as [τ Hτ]. exists τ.
    rewrite Htr in Hτ.
    eapply (work_in_mid _ _ _ post mid pre Hpre Hpost); [| | | exact Hτ]; done.
  - intros m Hm. split; [| by apply Hrecv].
    rewrite Hperm in Hm. destruct (elem_sent_msgs _ _ Hm) as (τ & i & Hτ).
    exists τ, i. rewrite Htr in Hτ.
    eapply (work_in_mid _ _ _ post mid pre Hpre Hpost); [| | | exact Hτ]; done.
Qed.

Lemma rejected_None :
  Method req ≠ MethodPost
  ∨ (∃ err, json_Decode W (ReqBody req) = inl err)
  ∨ (∃ p, json_Decode W (ReqBody req) = inr p ∧ Number p ≤ 0) →
  accepted = None.
Proof.
  unfold accepted. intros [Hm|[[err He]|(p & Hp & Hn)]].
  - by rewrite decide_False.
  - rewrite He. by case_decide.
  - rewrite Hp, (proj2 (Z.leb_le _ _) Hn). by case_decide.
Qed.

Lemma rejected_untouched s :
  good s → accepted = None →
  untouched s
  ∧ (trace s = [] ∧ response s = None
     ∨ ∃ τ msg, trace s = [(τ, EvHandler (HeError reject_status msg))]
                ∧ response s = Some (mkResponse reject_status (TextBody msg))
                ∧ pc s = HReturned).
Proof.
  intros ((Hpc & _) & Htr & _) Ha.
  unfold pc_inv, valid_payload in Hpc. unfold trace_inv in Htr.
  rewrite Ha in *.
  destruct (pc s); destruct_and?; try done; try (split; [done | by left]).
  split; [done | right].
  destruct Htr as (τ & msg & Htr & Hr). by exists τ, msg.
Qed.

(** C7. A request rejected for its shape (a method other than POST, a body
    that does not decode, a count that is not positive) never gets to any
    storage work: in every state of its run no task exists, the entropy
    pool is as it was, no channel has been made, and the trace holds at
    most the one [http.Error]; the run can always be completed, and then
    the response is that rejection. *)
Theorem C7_rejected_before_storage sched s :
  Method req ≠ MethodPost
  ∨ (∃ err, json_Decode W (ReqBody req) = inl err)
  ∨ (∃ p, json_Decode W (ReqBody req) = inr p ∧ Number p ≤ 0) →
  run W req sched (init now0 pool0) = Some s →
  tasks s = [] ∧ pool s = pool0 ∧ errs s = nil_chan ∧ wg s = 0
  ∧ crashed s = None
  ∧ (trace s = [] ∧ response s = None
     ∨ ∃ τ msg, trace s = [(τ, EvHandler (HeError reject_status msg))]
                ∧ response s = Some (mkResponse reject_status (TextBody msg))
                ∧ pc s = HReturned)
  ∧ ∃ sched' s' τ msg,
      run W req sched' s = Some s' ∧ pc s' = HReturned
      ∧ trace s' = [(τ, EvHandler (HeError reject_status msg))]
      ∧ response s' = Some (mkResponse reject_status (TextBody msg))
      ∧ tasks s' = [] ∧ pool s' = pool0.
Proof.
  intros Hrej Hrun. apply rejected_None in Hrej.
  pose proof (good_run sched _ _ good_init Hrun) as Hg.
  destruct (rejected_untouched s Hg Hrej)
    as ((Hts & Herrs & Hwg & _ & Hpool & Hc) & Htr).
  split_and!; try done.
  destruct (run_to_stop s) as (sched' & s' & Hrun' & Hstop);
    [by destruct Hg |].
  pose proof (good_run sched' _ _ Hg Hrun') as Hg'.
  destruct (rejected_untouched s' Hg' Hrej)
    as ((Hts' & _ & _ & _ & Hpool' & Hc') & Htr').
  destruct Hstop as [Hret|Hcr]; [| done].
  destruct Htr' as [[_ Hnone]|(τ & msg & Htr' & Hr' & _)].
  - destruct Hg' as ((Hpc & _) & _). unfold pc_inv in Hpc.
    rewrite Hret, Hrej in Hpc. destruct Hpc as (_ & msg & Hr). congruence.
  - by exists sched', s', τ, msg.
Qed.

(** ** One task on its own *)

(** Sends a task may still make. *)
Definition sends_left (t : task) : nat :=
  match t with
  | TBestEffortClose _ _ | TLogSuccess _ | TDone _ | TExited _ => 0
  | _ => 1
  end.

Lemma task_run_sends i nw fuel : ∀ po t,
  (length (sends (task_run W i nw fuel po t).1) ≤ sends_left t)%nat.
Proof.
  induction fuel as [|fuel IH]; intros po t; simpl; [lia |].
  destruct (task_step W i nw po t) as [[t' a]|] eqn:Hts; [| simpl; lia].
  assert (match a with
          | ASend _ => (1 + sends_left t' ≤ sends_left t)%nat
          | _ => (sends_left t' ≤ sends_left t)%nat
          end) as Hl.
  { destruct t; simpl in Hts; repeat case_match; simplify_eq; simpl; lia. }
  destruct a; simpl;
    try (match goal with
         | |- context [task_run W i nw fuel ?p t'] =>
             specialize (IH p t'); destruct (task_run W i nw fuel p t')
         end; simpl in *; lia).
  lia.
Qed.

Lemma task_run_step i nw fuel po t :
  task_run W i nw (S fuel) po t
  = match task_step W i nw po t with
    | None => ([], t)
    | Some (t', ACrash c) => ([ACrash c], t')
    | Some (t', a) =>
        let pool' := match a with AGenerate _ p => p | _ => po end in
        let '(acts, t'') := task_run W i nw fuel pool' t' in
        (a :: acts, t'')
    end.
Proof. done. Qed.

(** C6. A write task, from the creation of its writer on: when the write
    fails it sends exactly one failure, naming the key and the write
    error, and closes the stream with the result of that close dropped;
    when the write succeeds and the close fails it sends exactly one
    failure naming the key and the close error; when both succeed it sends
    nothing.  From whatever statement a task runs, it sends at most one
    failure. *)
Theorem C6_task_outcome i nw po key content :
  (let '(acts, t) := task_run W i nw 8 po (TNewWriter key content) in
   match write_err W i, close_err W i with
   | Some err, ignored =>
       acts = [ANewWriter key; AWriteString key content (Some err);
               ASend ("failed to write to GCS object " +:+ key +:+ ": " +:+ err);
               AWriterClose key ignored; AWgDone]
       ∧ t = TExited (Some (write_failure key err))
   | None, Some err =>
       acts = [ANewWriter key; AWriteString key content None;
               AWriterClose key (Some err);
               ASend ("failed to close GCS object writer for " +:+ key
                      +:+ ": " +:+ err);
               AWgDone]
       ∧ t = TExited (Some (close_failure key err))
   | None, None =>
       acts = [ANewWriter key; AWriteString key content None;
               AWriterClose key None;
               ALog ("Successfully created object: " +:+ key); AWgDone]
       ∧ t = TExited None
   end)
  ∧ ∀ fuel po' t,
      (length (sends (task_run W i nw fuel po' t).1) ≤ 1)%nat.
Proof.
  split.
  - do 2 (rewrite task_run_step; cbn [task_step]).
    destruct (write_err W i) as [err|] eqn:Hw.
    + by do 4 (rewrite task_run_step; cbn [task_step]).
    + rewrite task_run_step; cbn [task_step].
      destruct (close_err W i) as [err|] eqn:Hc;
        by do 3 (rewrite task_run_step; cbn [task_step]).
  - intros fuel po' t. pose proof (task_run_sends i nw fuel po' t).
    destruct t; simpl in *; lia.
Qed.

End invariants.

(** * The claims about the generators *)

Lemma time_Format_seconds now1 now2 L :
  now1 `div` 1000000000 = now2 `div` 1000000000 →
  time_Format (time_Now now1 L) = time_Format (time_Now now2 L).
Proof.
  intros H. unfold time_Format, wallSec, unixSec. simpl. by rewrite H.
Qed.

Lemma time_Format_UTC now1 L :
  L (now1 `div` 1000000000) = 0 →
  time_Format (time_Now now1 L) = time_Format (time_In_UTC (time_Now now1 L)).
Proof.
  intros H. unfold time_Format, wallSec, unixSec, UTC. simpl. by rewrite H.
Qed.

(** C4, as the code has it.  A generated key is the current time in the
    process's local time zone ([time.Now()] is not converted to UTC; the
    folder is the UTC time exactly where the local offset is zero),
    formatted at second granularity as year, month, day, T, hour, minute,
    second, joined by a slash to the lower-case hexadecimal encoding, 32
    digits, of 16 bytes drawn from the random source. *)
Theorem C4_object_key (now1 : Z) (L : Location) (e : entropy) :
  match generateObjectKey now1 L e with
  | Ret (key, e') =>
      key = time_Format (time_Now now1 L) +:+ "/" +:+ fmt_x (take 16 e)
      ∧ length (take 16 e) = 16%nat ∧ e = take 16 e ++ e'
      ∧ String.length (fmt_x (take 16 e)) = 32%nat
      ∧ Forall (λ c, is_lower_hex c = true) (chars (fmt_x (take 16 e)))
  | Crash c => c = EntropyFailure ∧ (length e < 16)%nat
  end
  ∧ (∀ now2, now1 `div` 1000000000 = now2 `div` 1000000000 →
             time_Format (time_Now now1 L) = time_Format (time_Now now2 L))
  ∧ (L (now1 `div` 1000000000) = 0 →
     time_Format (time_Now now1 L)
     = time_Format (time_In_UTC (time_Now now1 L))).
Proof.
  split_and!.
  - destruct (generateObjectKey_cases now1 L e) as [[-> Hlt]|[Hle ->]];
      [done |].
    split_and!; [done | | | | apply fmt_x_lower_hex].
    + rewrite length_take. lia.
    + by rewrite take_drop.
    + rewrite length_fmt_x, length_take. lia.
  - intros now2. apply time_Format_seconds.
  - apply time_Format_UTC.
Qed.

(** C4 as stated fails: one hour east of Greenwich, at the epoch, the
    folder of the key is 01:00:00, the UTC time is 00:00:00. *)
Lemma C4_counterexample_local_zone :
  generateObjectKey 0 (λ _, 3600) (replicate 16 xab)
  = Ret ("19700101T010000/abababababababababababababababab"%string, [])
  ∧ time_Format (time_In_UTC (time_Now 0 (λ _, 3600))) = "19700101T000000"%string
  ∧ "19700101T010000/abababababababababababababababab"%string
    ≠ (time_Format (time_In_UTC (time_Now 0 (λ _, 3600))) +:+ "/"
       +:+ fmt_x (replicate 16 xab)).
Proof. split_and!; [by vm_compute | by vm_compute | by vm_compute]. Qed.

(** C8. For a non-negative length, [generateRandomString] returns (unless
    the random source fails, which stops the program) a string of exactly
    that length whose characters all belong to the alphabet of the 62
    alphanumeric symbols, and it does return when the source delivers; the
    content of each task is such a string of 1024 characters. *)
Theorem C8_random_string (n : Z) (e : entropy) :
  0 ≤ n →
  match generateRandomString n e with
  | Ret (s, e') =>
      String.length s = Z.to_nat n
      ∧ Forall (λ c, is_alnum c = true) (chars s)
      ∧ (length e' + Z.to_nat n)%nat = length e
  | Crash c => c = EntropyFailure ∧ (length e < Z.to_nat n)%nat
  end
  ∧ ((Z.to_nat n ≤ length e)%nat → returned (generateRandomString n e) = true)
  ∧ (length (chars charset) = 62%nat ∧ NoDup (chars charset)
     ∧ ∀ c, is_alnum c = true ↔ c ∈ chars charset)
  ∧ ∀ W i now1 key t' a,
      task_step W i now1 e (TContent key) = Some (t', a) →
      match t' with
      | TNewWriter key' content =>
          key' = key ∧ String.length content = 1024%nat
          ∧ Forall (λ c, is_alnum c = true) (chars content)
      | _ => a = ACrash EntropyFailure
      end.
Proof.
  intros Hn. split; [| split; [| split]].
  - destruct (generateRandomString_cases n e Hn) as [[-> Hlt]|[Hle ->]];
      [done |].
    split_and!; [| apply random_string_alnum |].
    + rewrite length_string_of_list_byte, length_fmap, length_take. lia.
    + rewrite length_drop. lia.
  - intros Hle. by rewrite generateRandomString_enough.
  - apply charset_alnum.
  - intros W i now1 key t' a Hstep. simpl in Hstep.
    destruct (generateRandomString_cases 1024 e) as [[Hg Hlt]|[Hle Hg]];
      [lia | ..]; rewrite Hg in Hstep; simplify_eq; [done |].
    split_and!; [done | | apply random_string_alnum].
    rewrite length_string_of_list_byte, length_fmap, length_take. lia.
Qed.

Lemma crashed_stuck W req a d s :
  crashed s ≠ None → step W req a d s = None.
Proof. intros H. unfold step. by destruct (crashed s). Qed.

Lemma generate_crash W req i d s t :
  crashed s = None → tasks s !! i = Some t →
  task_step W i (now s + Z.of_N d) (pool s) t = Some (t, ACrash EntropyFailure) →
  ∃ s', step W req (Task i) d s = Some s'
        ∧ crashed s' = Some EntropyFailure
        ∧ response s' = response s
        ∧ ∀ a' d', step W req a' d' s' = None.
Proof.
  intros Hc Hi Hts. unfold step. rewrite Hc.
  destruct s as [pc0 pl st tt em ch w ts nw po rs tr cr].
  unfold task_sys_step. cbn [tasks now pool set_now] in *.
  rewrite Hi. cbn [mbind option_bind]. rewrite Hts.
  cbn [mbind option_bind apply_action]. eexists. split; [done |].
  split_and!; [done.. |]. intros a' d'. by apply crashed_stuck.
Qed.

(** C9. A failure of the random source while a key or a content string is
    generated stops the program: the generator returns nothing, the task
    that called it crashes the process, no goroutine runs afterwards and
    no response is written by that step.  A key or content string that is
    returned is built from bytes the source delivered in full, 16 for a
    key and one per character for a content string.  (The source is
    [crypto/rand.Read] as documented since Go 1.24: it returns no error
    and crashes the program when it cannot deliver.) *)
Theorem C9_entropy_failure_fatal :
  (∀ now1 L e, (length e < 16)%nat →
     generateObjectKey now1 L e = Crash EntropyFailure)
  ∧ (∀ n e, 0 ≤ n → (length e < Z.to_nat n)%nat →
       generateRandomString n e = Crash EntropyFailure)
  ∧ (∀ now1 L e key e', generateObjectKey now1 L e = Ret (key, e') →
       ∃ b, length b = 16%nat ∧ e = b ++ e'
            ∧ key = time_Format (time_Now now1 L) +:+ "/" +:+ fmt_x b)
  ∧ (∀ n e s e', 0 ≤ n → generateRandomString n e = Ret (s, e') →
       ∃ b, length b = Z.to_nat n ∧ e = b ++ e'
            ∧ s = string_of_list_byte (pick <$> b))
  ∧ (∀ W req i d s,
       crashed s = None → tasks s !! i = Some TKey →
       (length (pool s) < 16)%nat →
       ∃ s', step W req (Task i) d s = Some s'
             ∧ crashed s' = Some EntropyFailure
             ∧ response s' = response s
             ∧ ∀ a' d', step W req a' d' s' = None)
  ∧ (∀ W req i d s key,
       crashed s = None → tasks s !! i = Some (TContent key) →
       (length (pool s) < 1024)%nat →
       ∃ s', step W req (Task i) d s = Some s'
             ∧ crashed s' = Some EntropyFailure
             ∧ response s' = response s
             ∧ ∀ a' d', step W req a' d' s' = None).
Proof.
  split_and!.
  - intros. by apply generateObjectKey_short.
  - intros. by apply generateRandomString_short.
  - intros now1 L e key e' H.
    destruct (generateObjectKey_cases now1 L e) as [[Hg _]|[Hle Hg]];
      rewrite Hg in H; simplify_eq.
    exists (take 16 e). split_and!; [| by rewrite take_drop | done].
    rewrite length_take. lia.
  - intros n e s e' Hn H.
    destruct (generateRandomString_cases n e Hn) as [[Hg _]|[Hle Hg]];
      rewrite Hg in H; simplify_eq.
    exists (take (Z.to_nat n) e). split_and!; [| by rewrite take_drop | done].
    rewrite length_take. lia.
  - intros W req i d s Hc Hi Hlt. apply (generate_crash W req i d s TKey Hc Hi).
    simpl. by rewrite generateObjectKey_short.
  - intros W req i d s key Hc Hi Hlt.
    apply (generate_crash W req i d s (TContent key) Hc Hi).
    simpl. by rewrite generateRandomString_short by lia.
Qed.

(** * Process start-up ([main], main.go, 37-76)

    The start-up environment: what [godotenv.Load()] finds in [./.env]
    ([None] when there is no loadable file), the variables the process was
    started with, the error of [storage.NewClient] if any, and the error
    [http.ListenAndServe] returns in the end.  [main] is the list of what
    the process does at start-up; [log.Fatal] ends the process. *)

Record StartEnv := mkStartEnv {
  dotenv : option (list (string * string));
  environ : string → option string;
  newClientErr : option string;
  listenErr : string
}.

Inductive boot_event :=
| BLoadDotenv
| BGetenv (key : string)
| BPrintln (line : string)
| BNewClient
| BHandleFunc (pattern : string)
| BLogPrintf (line : string)
| BListenAndServe (addr : string)
| BFatal (line : string).

Fixpoint assoc (key : string) (l : list (string * string)) : option string :=
  match l with
  | [] => None
  | (k, v) :: rest => if decide (k = key) then Some v else assoc key rest
  end.

(** [os.Getenv] once [godotenv.Load] has succeeded: a variable the process
    was started with keeps its value, the file supplies the others, an
    unset variable reads as the empty string. *)
Definition os_Getenv (E : StartEnv) (file : list (string * string))
    (key : string) : string :=
  match environ E key with
  | Some v => v
  | None => default EmptyString (assoc key file)
  end.

Definition main (E : StartEnv) : list boot_event :=
  BLoadDotenv ::
  match dotenv E with
  | None => [BFatal "Error loading .env file"]
  | Some file =>
      BGetenv "GCS_BUCKET_NAME"
      :: BPrintln ("Starting server and writing to  "
                   +:+ os_Getenv E file "GCS_BUCKET_NAME")
      :: BNewClient
      :: match newClientErr E with
         | Some err => [BFatal ("Failed to create GCS client: " +:+ err)]
         | None =>
             let bucketName := os_Getenv E file "GCS_BUCKET_NAME" in
             BGetenv "GCS_BUCKET_NAME"
             :: (if decide (bucketName = EmptyString)
                 then [BFatal "GCS_BUCKET_NAME environment variable not set"]
                 else
                   let port := os_Getenv E file "PORT" in
                   let port := if decide (port = EmptyString)
                               then "8080"%string else port in
                   [BHandleFunc "/"; BGetenv "PORT";
                    BLogPrintf ("Starting server on port " +:+ port);
                    BListenAndServe (":" +:+ port);
                    BFatal ("Failed to start server: " +:+ listenErr E)])
         end
  end.

(** C10. When the working directory holds no loadable [.env] file, the
    process ends with the fatal error about that file and has done nothing
    else: it has read no configuration variable and has not created the
    storage client, whatever variables it was started with. *)
Theorem C10_no_dotenv_is_fatal (E : StartEnv) :
  dotenv E = None →
  main E = [BLoadDotenv; BFatal "Error loading .env file"]
  ∧ (BNewClient ∉ main E)
  ∧ ∀ key, BGetenv key ∉ main E.
Proof.
  intros H. unfold main. rewrite H. split_and!; [done | |].
  - intros Hin. repeat (apply elem_of_cons in Hin as [Hin|Hin]; [done |]).
    by apply elem_of_nil in Hin.
  - intros key Hin. repeat (apply elem_of_cons in Hin as [Hin|Hin]; [done |]).
    by apply elem_of_nil in Hin.
Qed.

(** The process was started with both variables set, and still ends at
    the missing file. *)
Definition exStart : StartEnv :=
  mkStartEnv None
    (λ key, if decide (key = "GCS_BUCKET_NAME"%string) then Some "bucket"%string
            else if decide (key = "PORT"%string) then Some "9090"%string
            else None)
    None "closed".

Lemma C10_witness :
  dotenv exStart = None
  ∧ environ exStart "GCS_BUCKET_NAME" = Some "bucket"%string
  ∧ environ exStart "PORT" = Some "9090"%string
  ∧ main exStart = [BLoadDotenv; BFatal "Error loading .env file"].
Proof.
  split_and!; [done.. |].
  exact (proj1 (C10_no_dotenv_is_fatal exStart eq_refl)).
Defined.

(** * A request worked through

    Three objects are asked for; the backend fails the write of task 1 and
    the close of task 2.  The clock shows 1 December 2025, 10:00:00 UTC, in
    a zone two hours east; every step takes five nanoseconds. *)

Definition quote : string := String (ascii_of_nat 34) EmptyString.

Definition exBody : string := "{" +:+ quote +:+ "number" +:+ quote +:+ ": 3}".

Definition exW : World :=
  mkWorld
    (λ b, if decide (b = exBody) then inr 3
          else inl "invalid character"%string)
    (λ _, 7200)
    (λ i, if decide (i = 1%nat) then Some "connection reset"%string else None)
    (λ i, if decide (i = 2%nat) then Some "context deadline exceeded"%string
          else None).

Definition exReq : Request := mkRequest "POST" exBody.
Definition exGet : Request := mkRequest "GET" exBody.

Definition exNow : Z := 1764583200000000000.
Definition exPool : entropy :=
  Eval vm_compute in
    (λ i, default x00 (Byte.of_N (N.of_nat (7 * i + 3) mod 256))) <$> seq 0 3120.

Definition turns (n : nat) (a : actor) : list (actor * N) := replicate n (a, 5%N).

(** The handler spawns the three tasks, the tasks take turns, the handler
    collects. *)
Definition exSched : list (actor * N) :=
  turns 9 Handler
  ++ mjoin (replicate 7 [(Task 0, 5%N); (Task 1, 5%N); (Task 2, 5%N)])
  ++ turns 8 Handler.

Definition exFinal : state :=
  Eval vm_compute in default (init 0 []) (run exW exReq exSched (init exNow exPool)).

Definition exPay : ResponsePayload :=
  Eval vm_compute in
    match response exFinal with
    | Some (mkResponse _ (JsonBody p)) => p
    | _ => mkResponsePayload 0 0 []
    end.

Definition exResp : Response := mkResponse 500 (JsonBody exPay).

(** A state in the middle of the run: every task has had four turns, task 1
    is about to send its failure. *)
Definition exMid : state :=
  Eval vm_compute in
    default (init 0 [])
      (run exW exReq
         (turns 9 Handler
          ++ mjoin (replicate 4 [(Task 0, 5%N); (Task 1, 5%N); (Task 2, 5%N)]))
         (init exNow exPool)).

(** The same body sent with GET. *)
Definition exRejected : state :=
  Eval vm_compute in
    default (init 0 []) (run exW exGet [(Handler, 5%N)] (init exNow exPool)).

Lemma exFinal_run : run exW exReq exSched (init exNow exPool) = Some exFinal.
Proof. vm_compute. reflexivity. Qed.

Lemma C1_witness :
  accepted exW exReq = Some (mkPayload 3)
  ∧ response exFinal = Some exResp
  ∧ ObjectsWritten exPay = 1 ∧ length (Errors exPay) = 2%nat
  ∧ ObjectsWritten exPay + Z.of_nat (length (Errors exPay)) = 3.
Proof.
  assert (accepted exW exReq = Some (mkPayload 3)) as Ha by (vm_compute; reflexivity).
  assert (response exFinal = Some exResp) as Hr by (vm_compute; reflexivity).
  split_and!; [done.. |].
  exact (proj1 (proj2 (C1_written_plus_errors exW exReq exNow exPool exSched
                         exFinal _ _ _ Ha exFinal_run Hr))).
Defined.

Lemma C2_witness :
  tasks exMid !! 1%nat
  = Some (TSendWriteErr "20251201T120000/737a81888f969da4abb2b9c0c7ced5dc"
            "connection reset")
  ∧ cap (errs exMid) = 3%nat
  ∧ is_Some (step exW exReq (Task 1) 5 exMid).
Proof.
  assert (run exW exReq
            (turns 9 Handler
             ++ mjoin (replicate 4 [(Task 0, 5%N); (Task 1, 5%N); (Task 2, 5%N)]))
            (init exNow exPool) = Some exMid) as Hrun by (vm_compute; reflexivity).
  split_and!; [vm_compute; reflexivity.. |].
  destruct (C2_collection_never_blocks exW exReq exNow exPool _ exMid Hrun)
    as (_ & _ & _ & _ & Hstep & _).
  apply (Hstep 1%nat
           (TSendWriteErr "20251201T120000/737a81888f969da4abb2b9c0c7ced5dc"
              "connection reset") 5%N); vm_compute; reflexivity.
Defined.

Lemma C3_witness :
  response exFinal = Some exResp
  ∧ StatusCode exResp = 500
  ∧ StatusCode exResp = expected_status exW exReq (errorMessages exFinal).
Proof.
  assert (response exFinal = Some exResp) as Hr by (vm_compute; reflexivity).
  split_and!; [done.. |].
  exact (proj1 (proj1 (C3_status exW exReq exNow exPool exSched exFinal
                         exFinal_run) exResp Hr)).
Defined.

Lemma C5_witness :
  response exFinal = Some exResp
  ∧ TimeTaken exPay = 145
  ∧ ∃ t0 t1 post mid pre,
      trace exFinal = post ++ (t1, EvHandler HeSince) :: mid
                        ++ (t0, EvHandler HeNow) :: pre
      ∧ TimeTaken exPay = t1 - t0
      ∧ no_work pre ∧ no_work post
      ∧ stamps_in t0 t1 mid
      ∧ Z.of_nat (length (tasks exFinal)) = Number (payload exFinal)
      ∧ (∀ i, (i < length (tasks exFinal))%nat →
              ∃ τ, (τ, EvTask i AWgDone) ∈ mid)
      ∧ (∀ m, m ∈ Errors exPay →
              (∃ τ i, (τ, EvTask i (ASend m)) ∈ mid)
              ∧ ∃ τ, (τ, EvHandler (HeRecv m)) ∈ post).
Proof.
  assert (response exFinal = Some exResp) as Hr by (vm_compute; reflexivity).
  split_and!; [done.. |].
  exact (C5_elapsed_interval exW exReq exNow exPool exSched exFinal 500 exPay
           exFinal_run Hr).
Defined.

Lemma C7_witness :
  Method exGet ≠ MethodPost
  ∧ run exW exGet [(Handler, 5%N)] (init exNow exPool) = Some exRejected
  ∧ response exRejected
    = Some (mkResponse 405 (TextBody "Only POST requests are accepted"))
  ∧ tasks exRejected = [] ∧ pool exRejected = exPool
  ∧ errs exRejected = nil_chan.
Proof.
  assert (Method exGet ≠ MethodPost) as Hm by (intros Hm; discriminate Hm).
  assert (run exW exGet [(Handler, 5%N)] (init exNow exPool) = Some exRejected)
    as Hrun by (vm_compute; reflexivity).
  split_and!; [done | done | vm_compute; reflexivity |..];
    destruct (C7_rejected_before_storage exW exGet exNow exPool _ exRejected
                (or_introl Hm) Hrun) as (Ht & Hp & He & _); done.
Defined.

Lemma C8_witness :
  0 ≤ 5
  ∧ generateRandomString 5 [x00; x3d; x3e; xff; x41; x07]
    = Ret ("a9ahd"%string, [x07])
  ∧ String.length "a9ahd" = 5%nat
  ∧ Forall (λ c, is_alnum c = true) (chars "a9ahd").
Proof.
  assert (0 ≤ 5) as H5 by lia.
  pose proof (proj1 (C8_random_string 5 [x00; x3d; x3e; xff; x41; x07] H5))
    as H.
  split_and!;
    [done | vm_compute; reflexivity | exact (proj1 H) | exact (proj1 (proj2 H))].
Defined.

Lemma C9_witness :
  (length (replicate 15 xab) < 16)%nat
  ∧ generateObjectKey exNow UTC (replicate 15 xab) = Crash EntropyFailure.
Proof.
  assert (length (replicate 15 xab) < 16)%nat as H by (simpl; lia).
  split; [done |].
  exact (proj1 C9_entropy_failure_fatal exNow UTC (replicate 15 xab) H).
Defined.
